(** * x64dbg, [src/dbg/_global.cpp]: allocation tracker and PE architecture probe

    A shallow embedding of [emalloc], [erealloc], [efree], [memleaks] and
    [GetFileArchitecture], and the properties the specification states about
    them.

    Conventions.
    - Pointers, sizes and offsets are [Z]; [NULL] is [0].
    - The C [int] counter [emalloc_count] is a [Z] kept in the 32-bit signed
      range, every update written with its wrap-around ([wrap_int]).
    - Memory is a total map from addresses to bytes: storage handed out by
      [GlobalAlloc(GMEM_FIXED, ..)] and a local array both start with
      whatever the memory held before.
    - The Windows calls the code makes ([GlobalAlloc], [GlobalFree],
      [MessageBoxW], [ExitProcess], [CreateFileW], [GetFileSize],
      [ReadFile]) are the environment: the heap manager is an interface
      ([Platform]), the file system a finite map from paths to files. *)

From Stdlib Require Import ZArith Lia List.
From Stdlib Require Import Strings.Byte.
From stdpp Require Import base gmap strings sorting.

Local Open Scope Z_scope.

(** ** Machine data *)

Definition NULL : Z := 0.

Definition INT_MIN : Z := - 2 ^ 31.
Definition INT_MAX : Z := 2 ^ 31 - 1.

(** A value of C type [int]. *)
Definition int_range (z : Z) : Prop := INT_MIN <= z <= INT_MAX.

(** Two's-complement wrap-around of a 32-bit signed result. *)
Definition wrap_int (z : Z) : Z := (z + 2 ^ 31) mod 2 ^ 32 - 2 ^ 31.

Definition memory : Type := Z -> byte.

Definition store (m : memory) (p : Z) (v : byte) : memory :=
  fun a => if a =? p then v else m a.

(** [memset(p, v, n)]: [n] consecutive byte stores from [p] upwards. *)
Fixpoint memset (m : memory) (p : Z) (v : byte) (n : nat) : memory :=
  match n with
  | O => m
  | S k => memset (store m p v) (p + 1) v k
  end.

(** ** The platform allocator *)

Definition GMEM_FIXED : Z := 0.
Definition MB_ICONERROR : Z := 16.

(** The heap manager behind [GlobalAlloc] and [GlobalFree], with its own
    state [H].  [GlobalAlloc flags size h] answers the address of the block,
    or [NULL] when the request cannot be met. *)
Class Platform (H : Type) : Type := {
  GlobalAlloc : Z -> Z -> H -> Z * H;
  GlobalFree : Z -> H -> H
}.

(** ** Allocation tracker *)

Module Tracker.

(** How a call ends: it returns to its caller, the process is gone
    ([ExitProcess]), or an assertion stopped it. *)
Inductive outcome (W A : Type) : Type :=
| Returned (a : A) (w : W)
| Exited (code : Z) (w : W)
| AssertFailed (w : W).
Arguments Returned {W A} a w.
Arguments Exited {W A} code w.
Arguments AssertFailed {W A} w.

Section WithPlatform.
Context {H : Type} `{!Platform H}.

(** Process state the tracker touches: the static counter, the heap manager,
    the address space, and the message boxes shown so far (text, caption,
    type), oldest first. *)
Record world : Type := World {
  emalloc_count : Z;
  heap : H;
  mem : memory;
  shown : list (string * string * Z)
}.

Definition M (A : Type) : Type := world -> outcome world A.

Definition ret {A} (a : A) : M A := fun w => Returned a w.

Definition bind {A B} (m : M A) (k : A -> M B) : M B :=
  fun w =>
    match m w with
    | Returned a w' => k a w'
    | Exited c w' => Exited c w'
    | AssertFailed w' => AssertFailed w'
    end.

Notation "x <- m ;; k" := (bind m (fun x => k))
  (at level 100, m at next level, k at level 200, right associativity).
Notation "m ;; k" := (bind m (fun _ => k))
  (at level 100, k at level 200, right associativity).

Definition sys_GlobalAlloc (flags size : Z) : M Z :=
  fun w =>
    let '(a, h) := GlobalAlloc flags size (heap w) in
    Returned a (World (emalloc_count w) h (mem w) (shown w)).

Definition sys_GlobalFree (ptr : Z) : M unit :=
  fun w =>
    Returned tt (World (emalloc_count w) (GlobalFree ptr (heap w)) (mem w) (shown w)).

Definition MessageBoxW (text caption : string) (type : Z) : M unit :=
  fun w =>
    Returned tt (World (emalloc_count w) (heap w) (mem w)
                       (shown w ++ [(text, caption, type)])).

(** [ExitProcess] does not return. *)
Definition ExitProcess {A} (code : Z) : M A := fun w => Exited code w.

Definition do_memset (p : Z) (v : byte) (n : Z) : M unit :=
  fun w =>
    Returned tt (World (emalloc_count w) (heap w)
                       (memset (mem w) p v (Z.to_nat n)) (shown w)).

(** [emalloc_count++] and [emalloc_count--]. *)
Definition incr_emalloc_count : M unit :=
  fun w =>
    Returned tt (World (wrap_int (emalloc_count w + 1)) (heap w) (mem w) (shown w)).

Definition decr_emalloc_count : M unit :=
  fun w =>
    Returned tt (World (wrap_int (emalloc_count w - 1)) (heap w) (mem w) (shown w)).

(** Modelled from the spec: the macro [ASSERT_NONZERO] is declared in
    [_global.h], which is not among the sources.  The specification calls a
    zero size a contract violation that is asserted: the call stops there. *)
Definition ASSERT_NONZERO (x : Z) : M unit :=
  fun w => if x =? 0 then AssertFailed w else Returned tt w.

Definition emalloc (size : Z) (reason : string) : M Z :=
  ASSERT_NONZERO size ;;
  a <- sys_GlobalAlloc GMEM_FIXED size ;;
  (if a =? NULL
   then MessageBoxW "Could not allocate memory" "Error" MB_ICONERROR ;;
        ExitProcess 1
   else ret tt) ;;
  do_memset a x00 size ;;
  incr_emalloc_count ;;
  ret a.

Definition efree (ptr : Z) (reason : string) : M unit :=
  decr_emalloc_count ;;
  sys_GlobalFree ptr.

Definition erealloc (ptr : Z) (size : Z) (reason : string) : M Z :=
  ASSERT_NONZERO size ;;
  (if negb (ptr =? NULL) then efree ptr reason else ret tt) ;;
  emalloc size reason.

Definition memleaks : M Z :=
  fun w => Returned (emalloc_count w) w.

(** The specification's reading of [reallocate]: release the old buffer when
    there is one, then allocate. *)
Definition release_then_allocate (ptr : Z) (size : Z) (reason : string) : M Z :=
  match ptr with
  | 0 => emalloc size reason
  | _ => efree ptr reason ;; emalloc size reason
  end.

(** The world [emalloc] leaves behind when the allocator answered [a] with
    heap [h] (the block zeroed, one more live allocation), the world [efree]
    leaves behind, and the message box of a failed allocation. *)
Definition after_emalloc (w : world) (n a : Z) (h : H) : world :=
  World (wrap_int (emalloc_count w + 1)) h
        (memset (mem w) a x00 (Z.to_nat n)) (shown w).

Definition after_efree (w : world) (ptr : Z) : world :=
  World (wrap_int (emalloc_count w - 1)) (GlobalFree ptr (heap w)) (mem w) (shown w).

Definition oom_box : string * string * Z :=
  ("Could not allocate memory"%string, "Error"%string, MB_ICONERROR).

(** The allocator hooks handed to the JSON library. *)
Definition json_malloc (size : Z) : M Z :=
  emalloc size "json:ptr".

Definition json_free (ptr : Z) : M unit :=
  efree ptr "json:ptr".

(** A caller's use of the tracker: one call after the other, results
    dropped. *)
Inductive call : Type :=
| Emalloc (size : Z) (reason : string)
| Erealloc (ptr size : Z) (reason : string)
| Efree (ptr : Z) (reason : string)
| JsonMalloc (size : Z)
| JsonFree (ptr : Z).

Definition run_call (c : call) : M unit :=
  match c with
  | Emalloc size reason => _ <- emalloc size reason ;; ret tt
  | Erealloc ptr size reason => _ <- erealloc ptr size reason ;; ret tt
  | Efree ptr reason => efree ptr reason
  | JsonMalloc size => _ <- json_malloc size ;; ret tt
  | JsonFree ptr => json_free ptr
  end.

Fixpoint run_calls (cs : list call) : M unit :=
  match cs with
  | [] => ret tt
  | c :: cs' => run_call c ;; run_calls cs'
  end.

(** Buffers a call adds to the count when it returns. *)
Definition live_delta (c : call) : Z :=
  match c with
  | Emalloc _ _ | JsonMalloc _ => 1
  | Erealloc ptr _ _ => if ptr =? NULL then 1 else 0
  | Efree _ _ | JsonFree _ => -1
  end.

Definition live_total (cs : list call) : Z :=
  fold_right (fun c acc => live_delta c + acc) 0 cs.

End WithPlatform.

Arguments world H : clear implicits.
Arguments M H A : clear implicits.

End Tracker.

(** ** Executable architecture probe *)

Module Prober.

(** [enum arch] of [_global.h]. *)
Inductive arch : Type := notfound | invalid | x32 | x64.

(** The two builds of the debugger: [size_t] has 32 or 64 bits. *)
Inductive target : Type := Win32 | Win64.

Definition size_t_bits (t : target) : Z :=
  match t with Win32 => 32 | Win64 => 64 end.

(** Constants and field offsets of the Windows SDK's [winnt.h]. *)
Definition IMAGE_DOS_SIGNATURE : Z := 0x5A4D.
Definition IMAGE_NT_SIGNATURE : Z := 0x00004550.
Definition IMAGE_FILE_MACHINE_I386 : Z := 0x014c.
Definition IMAGE_FILE_MACHINE_AMD64 : Z := 0x8664.

Definition off_e_magic : Z := 0.
Definition off_e_lfanew : Z := 60.
Definition off_Signature : Z := 0.
Definition off_FileHeader_Machine : Z := 4.

(** [sizeof(data)] for [unsigned char data[0x1000]]. *)
Definition sizeof_data : Z := 0x1000.

(** *** The file system *)

(** A file: its bytes, whether it can be opened for shared reading, and
    whether reading it succeeds. *)
Record file : Type := File {
  contents : list byte;
  share_read : bool;
  readable : bool
}.

(** [CreateFileW(.., GENERIC_READ, FILE_SHARE_READ, 0, OPEN_EXISTING, 0, 0)];
    [None] is [INVALID_HANDLE_VALUE]. *)
Definition CreateFileW (fs : gmap string file) (name : string) : option file :=
  match fs !! name with
  | Some f => if share_read f then Some f else None
  | None => None
  end.

(** [GetFileSize(hFile, 0)] on an open file: the low 32 bits of its size. *)
Definition GetFileSize (hFile : file) : Z :=
  Z.of_nat (length (contents hFile)) mod 2 ^ 32.

Fixpoint write_bytes (m : memory) (p : Z) (bs : list byte) : memory :=
  match bs with
  | [] => m
  | b :: bs' => write_bytes (store m p b) (p + 1) bs'
  end.

(** [ReadFile(hFile, buffer, n, &read, 0)] on a handle just opened: the
    first [n] bytes of the file, or all of it when it is shorter, land at
    the start of the buffer; the answer is the buffer and [read].  [None]
    is a failed read. *)
Definition ReadFile (hFile : file) (buffer : memory) (n : Z) : option (memory * Z) :=
  if readable hFile then
    let bs := take (Z.to_nat n) (contents hFile) in
    Some (write_bytes buffer 0 bs, Z.of_nat (length bs))
  else None.

(** *** Loads from the buffer, with the offsets they touch *)

Definition Ld (A : Type) : Type := A * list Z.

Definition ld_ret {A} (a : A) : Ld A := (a, []).

Definition ld_bind {A B} (m : Ld A) (k : A -> Ld B) : Ld B :=
  let '(a, l1) := m in
  let '(b, l2) := k a in
  (b, l1 ++ l2).

Notation "x <- m ;; k" := (ld_bind m (fun x => k))
  (at level 100, m at next level, k at level 200, right associativity).

Definition byte_val (b : byte) : Z := Z.of_N (Byte.to_N b).

Definition load8 (m : memory) (off : Z) : Ld Z := (byte_val (m off), [off]).

(** Little-endian [WORD] and [DWORD]. *)
Definition load16 (m : memory) (off : Z) : Ld Z :=
  b0 <- load8 m off ;;
  b1 <- load8 m (off + 1) ;;
  ld_ret (Z.lor b0 (Z.shiftl b1 8)).

Definition load32 (m : memory) (off : Z) : Ld Z :=
  w0 <- load16 m off ;;
  w1 <- load16 m (off + 2) ;;
  ld_ret (Z.lor w0 (Z.shiftl w1 16)).

(** A [DWORD] bit pattern read as a [LONG]. *)
Definition to_LONG (u : Z) : Z := if u <? 2 ^ 31 then u else u - 2 ^ 32.

(** The conversion [(size_t)x] of a [LONG]. *)
Definition cast_size_t (t : target) (x : Z) : Z := x mod 2 ^ size_t_bits t.

(** [GetFileArchitecture], answering the classification together with the
    offsets of [data] it loaded, in order.  [stack] is the memory the local
    array [data] occupies on entry, addressed from [&data[0]]; the array is
    not initialised. *)
Definition GetFileArchitecture_loads (t : target) (fs : gmap string file)
    (stack : memory) (szFileName : string) : Ld arch :=
  let retval := notfound in
  match CreateFileW fs szFileName with
  | Some hFile =>
      let data := stack in
      let fileSize := GetFileSize hFile in
      let readSize := sizeof_data in
      let readSize := if readSize >? fileSize then fileSize else readSize in
      match ReadFile hFile data readSize with
      | Some (data, read) =>
          let retval := invalid in
          let pdh := 0 in
          e_magic <- load16 data (pdh + off_e_magic) ;;
          if e_magic =? IMAGE_DOS_SIGNATURE then
            e_lfanew <- load32 data (pdh + off_e_lfanew) ;;
            let e_lfanew := to_LONG e_lfanew in
            if cast_size_t t e_lfanew <? readSize then
              let pnth := e_lfanew in
              Signature <- load32 data (pnth + off_Signature) ;;
              if Signature =? IMAGE_NT_SIGNATURE then
                Machine <- load16 data (pnth + off_FileHeader_Machine) ;;
                if Machine =? IMAGE_FILE_MACHINE_I386 then ld_ret x32
                else if Machine =? IMAGE_FILE_MACHINE_AMD64 then ld_ret x64
                else ld_ret retval
              else ld_ret retval
            else ld_ret retval
          else ld_ret retval
      | None => ld_ret retval
      end
  | None => ld_ret retval
  end.

Definition GetFileArchitecture (t : target) (fs : gmap string file)
    (stack : memory) (szFileName : string) : arch :=
  fst (GetFileArchitecture_loads t fs stack szFileName).

(** The offsets of [data] a call inspects. *)
Definition inspected (t : target) (fs : gmap string file)
    (stack : memory) (szFileName : string) : list Z :=
  snd (GetFileArchitecture_loads t fs stack szFileName).

(** The size the code passes to [ReadFile]. *)
Definition read_size (hFile : file) : Z :=
  if sizeof_data >? GetFileSize hFile then GetFileSize hFile else sizeof_data.

(** The header fields as the code takes them from the buffer. *)
Definition e_magic (data : memory) : Z := fst (load16 data off_e_magic).
Definition e_lfanew (data : memory) : Z := to_LONG (fst (load32 data off_e_lfanew)).
Definition Signature (data : memory) (pnth : Z) : Z :=
  fst (load32 data (pnth + off_Signature)).
Definition Machine (data : memory) (pnth : Z) : Z :=
  fst (load16 data (pnth + off_FileHeader_Machine)).

(** The answer once the read has succeeded, as one expression over the
    fields (shown equal to the code's in [GetFileArchitecture_read_ok]). *)
Definition header_verdict (t : target) (data : memory) (readSize : Z) : arch :=
  if (e_magic data =? IMAGE_DOS_SIGNATURE)
     && (cast_size_t t (e_lfanew data) <? readSize)
     && (Signature data (e_lfanew data) =? IMAGE_NT_SIGNATURE)
  then
    if Machine data (e_lfanew data) =? IMAGE_FILE_MACHINE_I386 then x32
    else if Machine data (e_lfanew data) =? IMAGE_FILE_MACHINE_AMD64 then x64
    else invalid
  else invalid.

(** *** The specification's reading, on the bytes of the file *)

(** The byte of the file at an offset, when the file has one there. *)
Definition file_u8 (bs : list byte) (off : Z) : option Z :=
  if off <? 0 then None else byte_val <$> bs !! Z.to_nat off.

Definition file_u16 (bs : list byte) (off : Z) : option Z :=
  b0 ← file_u8 bs off;
  b1 ← file_u8 bs (off + 1);
  Some (Z.lor b0 (Z.shiftl b1 8)).

Definition file_u32 (bs : list byte) (off : Z) : option Z :=
  w0 ← file_u16 bs off;
  w1 ← file_u16 bs (off + 2);
  Some (Z.lor w0 (Z.shiftl w1 16)).

(** Steps 3 and 4 of the specification's algorithm, each header field taken
    from the bytes read from the file: the DOS magic, [e_lfanew] below the
    number of bytes read, the NT signature at that offset, and a machine
    type that is i386 or AMD64.  [None] when the bytes do not parse as such
    a header. *)
Definition parse_header (bs : list byte) : option arch :=
  let prefix := take (Z.to_nat sizeof_data) bs in
  magic ← file_u16 prefix off_e_magic;
  if magic =? IMAGE_DOS_SIGNATURE then
    lfanew ← to_LONG <$> file_u32 prefix off_e_lfanew;
    if (0 <=? lfanew) && (lfanew <? Z.of_nat (length prefix)) then
      sig ← file_u32 prefix (lfanew + off_Signature);
      if sig =? IMAGE_NT_SIGNATURE then
        machine ← file_u16 prefix (lfanew + off_FileHeader_Machine);
        if machine =? IMAGE_FILE_MACHINE_I386 then Some x32
        else if machine =? IMAGE_FILE_MACHINE_AMD64 then Some x64
        else None
      else None
    else None
  else None.

Definition recognized_header (bs : list byte) : bool :=
  match parse_header bs with Some _ => true | None => false end.

(** Guarded access: every offset of [data] a call loads from lies within
    the bytes the read put there. *)
Definition loads_within_read (t : target) (fs : gmap string file)
    (stack : memory) (szFileName : string) : Prop :=
  forall hFile data read,
    CreateFileW fs szFileName = Some hFile ->
    ReadFile hFile stack (read_size hFile) = Some (data, read) ->
    Forall (fun off => 0 <= off < read) (inspected t fs stack szFileName).

End Prober.

(** ** A concrete platform, to run the tracker on

    A bump allocator over the addresses [brk .. top): a request that does not
    fit answers [NULL]; freeing forgets the block. *)

Module Bump.

Record heap : Type := Heap {
  brk : Z;
  top : Z;
  blocks : gmap Z Z
}.

Definition alloc (flags size : Z) (h : heap) : Z * heap :=
  if brk h + size <=? top h
  then (brk h, Heap (brk h + size) (top h) (<[brk h := size]> (blocks h)))
  else (NULL, h).

Definition free (ptr : Z) (h : heap) : heap :=
  Heap (brk h) (top h) (delete ptr (blocks h)).

#[export] Instance platform : Platform heap :=
  {| GlobalAlloc := alloc; GlobalFree := free |}.

(** A process at start-up: counter [0], an empty heap of 4096 bytes at
    [0x10000], memory filled with [0xCC], nothing shown. *)
Definition boot : Tracker.world heap :=
  Tracker.World 0 (Heap 0x10000 0x11000 ∅) (fun _ => xcc) [].

(** The same process holding one buffer of 16 bytes. *)
Definition one_live : Tracker.world heap :=
  Tracker.World 1 (Heap 0x10010 0x11000 {[ 0x10000 := 16 ]}) (fun _ => xcc) [].

(** The same process with the heap used up. *)
Definition exhausted : Tracker.world heap :=
  Tracker.World 3 (Heap 0x11000 0x11000 ∅) (fun _ => xcc) [].

End Bump.

(** ** C strings: [arraycontains], [scmp], [formathex], [formatdec]

    A C string is given by its characters before the terminator, a buffer
    by all its bytes.  Character classes and case are those of the "C"
    locale: a byte above [0x7F] is in no class and has no case. *)

Module Text.

(** How a call ends: with its result, in the C runtime's invalid-parameter
    handler (a destination too small for [strcpy_s]), with an access outside
    a buffer, or not within the iterations allowed to a loop. *)
Inductive result (A : Type) : Type :=
| Ret (a : A)
| InvalidParameter
| OutOfBounds
| OutOfFuel.
Arguments Ret {A} a.
Arguments InvalidParameter {A}.
Arguments OutOfBounds {A}.
Arguments OutOfFuel {A}.

Definition rbind {A B} (m : result A) (k : A -> result B) : result B :=
  match m with
  | Ret a => k a
  | InvalidParameter => InvalidParameter
  | OutOfBounds => OutOfBounds
  | OutOfFuel => OutOfFuel
  end.

Notation "x <- m ;; k" := (rbind m (fun x => k))
  (at level 100, m at next level, k at level 200, right associativity).

Definition NUL : byte := x00.

Definition code (c : byte) : Z := Z.of_N (Byte.to_N c).

Definition char_of (z : Z) : byte :=
  match Byte.of_N (Z.to_N z) with Some c => c | None => NUL end.

(** [<ctype.h>] *)
Definition isdigit (c : byte) : bool := (48 <=? code c) && (code c <=? 57).

Definition isxdigit (c : byte) : bool :=
  isdigit c
  || ((65 <=? code c) && (code c <=? 70))
  || ((97 <=? code c) && (code c <=? 102)).

Definition toupper (c : byte) : byte :=
  if (97 <=? code c) && (code c <=? 122) then char_of (code c - 32) else c.

Definition tolower (c : byte) : byte :=
  if (65 <=? code c) && (code c <=? 90) then char_of (code c + 32) else c.

(** [_strupr(string)], in place. *)
Definition _strupr (string : list byte) : list byte := map toupper string.

(** [_stricmp(a, b)]: the characters are lowered and compared as unsigned
    bytes up to the first difference, the terminator counting as [0]. *)
Fixpoint _stricmp (a b : list byte) : Z :=
  match a, b with
  | [], [] => 0
  | [], l :: _ => 0 - code (tolower l)
  | f :: _, [] => code (tolower f) - 0
  | f :: a', l :: b' =>
      if code (tolower f) =? code (tolower l) then _stricmp a' b'
      else code (tolower f) - code (tolower l)
  end.

(** The C string that starts a buffer: its bytes before the first [NUL]. *)
Fixpoint c_str (buf : list byte) : list byte :=
  match buf with
  | [] => []
  | c :: buf' => if Byte.eqb c NUL then [] else c :: c_str buf'
  end.

(** [strlen(buf + p)]. *)
Definition strlen_at (buf : list byte) (p : nat) : nat := length (c_str (drop p buf)).

Definition load (buf : list byte) (i : nat) : result byte :=
  match buf !! i with Some c => Ret c | None => OutOfBounds end.

Definition poke (buf : list byte) (i : nat) (c : byte) : result (list byte) :=
  if (i <? length buf)%nat then Ret (<[i := c]> buf) else OutOfBounds.

(** [strcpy_s(dest, sizeof dest, src)]: [src] and its terminator go to the
    start of [dest]; what follows them is left alone by the release runtime
    ([fill = None]) and overwritten with a fill byte by the debug runtime.
    A [dest] too small for [src] and its terminator is an invalid
    parameter. *)
Definition strcpy_s (fill : option byte) (dest src : list byte) : result (list byte) :=
  if (length src <? length dest)%nat then
    let rest := drop (S (length src)) dest in
    Ret (src ++ NUL :: match fill with
                      | None => rest
                      | Some c => repeat c (length rest)
                      end)
  else InvalidParameter.

(** [for(int i = 0; i < len; i++) if(temp[i] == 1) temp[i] = 0;], with [n]
    iterations to go. *)
Fixpoint clear_separators (temp : list byte) (i n : nat) : result (list byte) :=
  match n with
  | O => Ret temp
  | S n' =>
      c <- load temp i ;;
      temp <- (if Byte.eqb c x01 then poke temp i NUL else Ret temp) ;;
      clear_separators temp (S i) n'
  end.

(** The second loop of [arraycontains], from index [i] on. *)
Fixpoint scan_entries (fuel : nat) (temp cmd : list byte) (len i : nat) : result bool :=
  if (i <? len)%nat then
    match fuel with
    | O => OutOfFuel
    | S fuel' =>
        c <- load temp i ;;
        if Byte.eqb c NUL then
          if _stricmp (c_str (drop (i + 1) temp)) cmd =? 0 then Ret true
          else scan_entries fuel' temp cmd len (i + strlen_at temp (i + 1) + 1)
        else scan_entries fuel' temp cmd len (i + 1)
    end
  else Ret false.

(** [arraycontains(cmd_list, cmd)]; [None] is a null pointer.  [deflen],
    the size of [temp], is a constant of [_global.h]. *)
Definition arraycontains (deflen : nat) (fill : option byte)
    (cmd_list cmd : option (list byte)) : result bool :=
  match cmd_list, cmd with
  | Some cmd_list, Some cmd =>
      let temp := repeat NUL deflen in
      temp <- strcpy_s fill temp cmd_list ;;
      let len := length cmd_list in
      if (deflen <=? len)%nat then Ret false
      else
        temp <- clear_separators temp 0 len ;;
        if _stricmp (c_str temp) cmd =? 0 then Ret true
        else scan_entries len temp cmd len (strlen_at temp 0)
  | _, _ => Ret false
  end.

Definition scmp (a b : list byte) : bool :=
  if negb (_stricmp a b =? 0) then false else true.

(** [sprintf(buf + j, "%c", c)]: the character and a terminator; the
    answer is the buffer and the count [1]. *)
Definition sprintf_c (buf : list byte) (j : nat) (c : byte) : result (list byte * nat) :=
  buf <- poke buf j c ;;
  buf <- poke buf (j + 1) NUL ;;
  Ret (buf, 1%nat).

(** [for(int i = 0, j = 0; i < len; i++) if(keep(string[i])) j +=
    sprintf(new_string() + j, "%c", string[i]);], with [n] iterations
    to go. *)
Fixpoint keep_chars (keep : byte -> bool) (string new_string : list byte)
    (i j n : nat) : result (list byte) :=
  match n with
  | O => Ret new_string
  | S n' =>
      c <- load string i ;;
      if keep c then
        r <- sprintf_c new_string j c ;;
        keep_chars keep string (fst r) (S i) (j + snd r) n'
      else keep_chars keep string new_string (S i) j n'
  end.

(** The body shared by [formathex] and [formatdec]: the answer is the
    string left in the caller's buffer.  [new_string] is the
    [Memory<char*>] buffer of [len + 1] bytes, zeroed as [emalloc] leaves
    it; the caller's buffer holds the string and its terminator. *)
Definition format_with (keep : byte -> bool) (fill : option byte)
    (string : list byte) : result (list byte) :=
  let len := length string in
  let string := _strupr string in
  let new_string := repeat NUL (len + 1) in
  new_string <- keep_chars keep string new_string 0 0 len ;;
  buffer <- strcpy_s fill (string ++ [NUL]) (c_str new_string) ;;
  Ret (c_str buffer).

Definition formathex (fill : option byte) (string : list byte) : result (list byte) :=
  format_with isxdigit fill string.

Definition formatdec (fill : option byte) (string : list byte) : result (list byte) :=
  format_with isdigit fill string.

(** *** The entries of an array string *)

(** The pieces of [s] between separators, in order; at least one. *)
Fixpoint split_on (sep : byte) (s : list byte) : list (list byte) :=
  match s with
  | [] => [[]]
  | c :: s' =>
      if Byte.eqb c sep then [] :: split_on sep s'
      else match split_on sep s' with
           | e :: es => (c :: e) :: es
           | [] => [[c]]
           end
  end.

(** Some entry equals [cmd], case ignored. *)
Definition has_entry (entries : list (list byte)) (cmd : list byte) : bool :=
  existsb (fun e => _stricmp e cmd =? 0) entries.

(** The characters of a C string: none is the terminator. *)
Definition nul_free (s : list byte) : Prop := Forall (fun c => c <> NUL) s.

(** What the first loop of [arraycontains] does to one character, and the
    entries laid out as it leaves them: one after the other, a [NUL]
    between two. *)
Definition separator_to_nul (c : byte) : byte :=
  if Byte.eqb c x01 then NUL else c.

Definition join_nul (entries : list (list byte)) : list byte :=
  match entries with
  | [] => []
  | e :: es => e ++ flat_map (cons NUL) es
  end.

End Text.

(** ** [ResolveShortcut]

    The shell link object behind [IShellLink] and [IPersistFile] is the
    environment: what each of its calls answers is given, and the calls the
    function makes are recorded in order. *)

Module Shortcut.
Import Text.

(** [HRESULT] is a [LONG]; [SUCCEEDED(hr)] is [hr >= 0]. *)
Definition SUCCEEDED (hr : Z) : bool := 0 <=? hr.
Definition E_INVALIDARG : Z := 0x80070057 - 2 ^ 32.

Inductive com_call : Type :=
| CoInitialize
| CoCreateInstance
| QueryInterface
| Load
| Resolve
| GetPath
| Release_ppf
| Release_psl
| CoUninitialize.

(** The answers of the calls, and [szGotPath] as [GetPath] leaves it. *)
Record shell : Type := Shell {
  hr_CoCreateInstance : Z;
  hr_QueryInterface : Z;
  hr_Load : Z;
  hr_Resolve : Z;
  hr_GetPath : Z;
  szGotPath : list byte
}.

(** [ResolveShortcut(hwnd, szShortcutPath, szResolvedPath, nSize)]:
    [szResolvedPath] is [None] for a null pointer and otherwise the [nSize]
    bytes of the buffer.  The answer is the result, the buffer, and the
    calls made. *)
Definition ResolveShortcut (env : shell) (fill : option byte)
    (szResolvedPath : option (list byte))
    : result (bool * option (list byte) * list com_call) :=
  match szResolvedPath with
  | None => Ret (SUCCEEDED E_INVALIDARG, None, [])
  | Some buffer =>
      let hres := hr_CoCreateInstance env in
      r <- (if SUCCEEDED hres then
              let hres := hr_QueryInterface env in
              r <- (if SUCCEEDED hres then
                      let hres := hr_Load env in
                      r <- (if SUCCEEDED hres then
                              let hres := hr_Resolve env in
                              if SUCCEEDED hres then
                                let hres := hr_GetPath env in
                                if SUCCEEDED hres then
                                  buffer <- strcpy_s fill buffer (c_str (szGotPath env)) ;;
                                  Ret (hres, buffer, [Resolve; GetPath])
                                else Ret (hres, buffer, [Resolve; GetPath])
                              else Ret (hres, buffer, [Resolve])
                            else Ret (hres, buffer, [])) ;;
                      let '(hres, buffer, calls) := r in
                      Ret (hres, buffer, Load :: calls ++ [Release_ppf])
                    else Ret (hres, buffer, [])) ;;
              let '(hres, buffer, calls) := r in
              Ret (hres, buffer, QueryInterface :: calls ++ [Release_psl])
            else Ret (hres, buffer, [])) ;;
      let '(hres, buffer, calls) := r in
      Ret (SUCCEEDED hres, Some buffer,
           CoInitialize :: CoCreateInstance :: calls ++ [CoUninitialize])
  end.

(** How often a call was made. *)
Definition same_call (a b : com_call) : bool :=
  match a, b with
  | CoInitialize, CoInitialize | CoCreateInstance, CoCreateInstance
  | QueryInterface, QueryInterface | Load, Load | Resolve, Resolve
  | GetPath, GetPath | Release_ppf, Release_ppf | Release_psl, Release_psl
  | CoUninitialize, CoUninitialize => true
  | _, _ => false
  end.

Definition times (c : com_call) (calls : list com_call) : nat :=
  length (List.filter (same_call c) calls).

End Shortcut.

(** ** File attributes: [FileExists], [DirExists] *)

Module Attributes.

(** Constants of the Windows SDK. *)
Definition INVALID_FILE_ATTRIBUTES : Z := 0xFFFFFFFF.
Definition FILE_ATTRIBUTE_DIRECTORY : Z := 0x10.

Section WithFileSystem.
(** [GetFileAttributesW] on the converted path: a [DWORD]. *)
Variable GetFileAttributesW : string -> Z.

Definition FileExists (file : string) : bool :=
  let attrib := GetFileAttributesW file in
  negb (attrib =? INVALID_FILE_ATTRIBUTES)
  && (Z.land attrib FILE_ATTRIBUTE_DIRECTORY =? 0).

Definition DirExists (dir : string) : bool :=
  let attrib := GetFileAttributesW dir in
  negb (attrib =? INVALID_FILE_ATTRIBUTES)
  && negb (Z.land attrib FILE_ATTRIBUTE_DIRECTORY =? 0).

End WithFileSystem.

End Attributes.

(** ** Settings: [settingboolget] and the [Configuration] of the GUI

    The settings store behind [BridgeSettingGetUint] and
    [BridgeSettingSetUint] belongs to the bridge and is an interface here.
    Of [Configuration], the boolean and unsigned settings are modelled,
    [QMap] as a finite map; a [duint] is a [Z]. *)

(** The store, with its own state [S]: a read answers the value or fails,
    a write answers whether it succeeded. *)
Class Bridge (S : Type) : Type := {
  BridgeSettingGetUint : string -> string -> S -> option Z;
  BridgeSettingSetUint : string -> string -> Z -> S -> bool * S
}.

Module Settings.

(** The button a [QMessageBox] with [Retry | Cancel] is closed with. *)
Inductive button : Type := Retry | Cancel.

Record Configuration : Type := Conf {
  Bools : gmap string (gmap string bool);
  Uints : gmap string (gmap string Z);
  defaultBools : gmap string (gmap string bool);
  defaultUints : gmap string (gmap string Z);
  noMoreMsgbox : bool
}.

(** What a method leaves: its result, the configuration, and the texts of
    the warnings shown. *)
Definition Gui (A : Type) : Type := A * Configuration * list string.

(** [QMessageBox msg(QMessageBox::Warning, "NOT FOUND IN CONFIG!", text,
    Retry | Cancel); if(msg.exec() == QMessageBox::Cancel) noMoreMsgbox =
    true;], the user answering [answer]. *)
Definition warn (cfg : Configuration) (text : string) (answer : button)
    : Configuration * list string :=
  (match answer with
   | Cancel => Conf (Bools cfg) (Uints cfg) (defaultBools cfg) (defaultUints cfg) true
   | Retry => cfg
   end, [text]).

Definition getBool (category id : string) (cfg : Configuration) (answer : button)
    : Gui bool :=
  match Bools cfg !! category with
  | Some currentBool =>
      match currentBool !! id with
      | Some b => (b, cfg, [])
      | None =>
          if noMoreMsgbox cfg then (false, cfg, [])
          else let '(cfg, shown) := warn cfg (category +:+ ":" +:+ id) answer in
               (false, cfg, shown)
      end
  | None =>
      if noMoreMsgbox cfg then (false, cfg, [])
      else let '(cfg, shown) := warn cfg category answer in (false, cfg, shown)
  end.

Definition setBool (category id : string) (b : bool) (cfg : Configuration)
    (answer : button) : Gui unit :=
  match Bools cfg !! category with
  | Some currentBool =>
      match currentBool !! id with
      | Some _ =>
          (tt, Conf (<[category := <[id := b]> currentBool]> (Bools cfg)) (Uints cfg)
                    (defaultBools cfg) (defaultUints cfg) (noMoreMsgbox cfg), [])
      | None =>
          if noMoreMsgbox cfg then (tt, cfg, [])
          else let '(cfg, shown) := warn cfg (category +:+ ":" +:+ id) answer in
               (tt, cfg, shown)
      end
  | None =>
      if noMoreMsgbox cfg then (tt, cfg, [])
      else let '(cfg, shown) := warn cfg category answer in (tt, cfg, shown)
  end.

Definition getUint (category id : string) (cfg : Configuration) (answer : button)
    : Gui Z :=
  match Uints cfg !! category with
  | Some currentUint =>
      match currentUint !! id with
      | Some i => (i, cfg, [])
      | None =>
          if noMoreMsgbox cfg then (0, cfg, [])
          else let '(cfg, shown) := warn cfg (category +:+ ":" +:+ id) answer in
               (0, cfg, shown)
      end
  | None =>
      if noMoreMsgbox cfg then (0, cfg, [])
      else let '(cfg, shown) := warn cfg category answer in (0, cfg, shown)
  end.

Definition setUint (category id : string) (i : Z) (cfg : Configuration)
    (answer : button) : Gui unit :=
  match Uints cfg !! category with
  | Some currentUint =>
      match currentUint !! id with
      | Some _ =>
          (tt, Conf (Bools cfg) (<[category := <[id := i]> currentUint]> (Uints cfg))
                    (defaultBools cfg) (defaultUints cfg) (noMoreMsgbox cfg), [])
      | None =>
          if noMoreMsgbox cfg then (tt, cfg, [])
          else let '(cfg, shown) := warn cfg (category +:+ ":" +:+ id) answer in
               (tt, cfg, shown)
      end
  | None =>
      if noMoreMsgbox cfg then (tt, cfg, [])
      else let '(cfg, shown) := warn cfg category answer in (tt, cfg, shown)
  end.

(** The setting under a category and an id, if there is one, and the ids
    of every category. *)
Definition bool_at (cfg : Configuration) (category id : string) : option bool :=
  Bools cfg !! category ≫= fun currentBool => currentBool !! id.

Definition uint_at (cfg : Configuration) (category id : string) : option Z :=
  Uints cfg !! category ≫= fun currentUint => currentUint !! id.

Definition ids {A} (m : gmap string (gmap string A)) : gmap string (gset string) :=
  dom <$> m.

(** Two configurations with the same ids under the same categories and
    the same defaults. *)
Definition same_settings (cfg cfg' : Configuration) : Prop :=
  ids (Bools cfg') = ids (Bools cfg)
  /\ ids (Uints cfg') = ids (Uints cfg)
  /\ defaultBools cfg' = defaultBools cfg
  /\ defaultUints cfg' = defaultUints cfg.

(** One access to the configuration, as a caller makes it. *)
Inductive access : Type :=
| GetBool (category id : string)
| SetBool (category id : string) (b : bool)
| GetUint (category id : string)
| SetUint (category id : string) (i : Z).

Definition run_access (a : access) (cfg : Configuration) (answer : button)
    : Configuration * list string :=
  match a with
  | GetBool category id => let '(_, cfg, shown) := getBool category id cfg answer in (cfg, shown)
  | SetBool category id b => let '(_, cfg, shown) := setBool category id b cfg answer in (cfg, shown)
  | GetUint category id => let '(_, cfg, shown) := getUint category id cfg answer in (cfg, shown)
  | SetUint category id i => let '(_, cfg, shown) := setUint category id i cfg answer in (cfg, shown)
  end.

(** Accesses one after the other, each with the answer the user would give
    to its warning; the warnings shown, in order. *)
Fixpoint run_accesses (l : list (access * button)) (cfg : Configuration)
    : Configuration * list string :=
  match l with
  | [] => (cfg, [])
  | (a, answer) :: l' =>
      let '(cfg, shown) := run_access a cfg answer in
      let '(cfg, shown') := run_accesses l' cfg in
      (cfg, shown ++ shown')
  end.

(** [QMap::keys()]: the keys in ascending order. *)
Definition key_le (a b : string) : Prop := String.leb a b = true.

#[export] Instance key_le_dec (a b : string) : Decision (key_le a b) :=
  decide (String.leb a b = true).

Definition keys {A} (m : gmap string A) : list string :=
  merge_sort key_le (map fst (map_to_list m)).

Section WithBridge.
Context {S : Type} `{!Bridge S}.

(** [settingboolget] of the debugger. *)
Definition settingboolget (section name : string) (store : S) : bool :=
  match BridgeSettingGetUint section name store with
  | None => false
  | Some setting => if negb (setting =? 0) then true else false
  end.

(** A [bool] passed for a [duint]. *)
Definition duint_of_bool (b : bool) : Z := if b then 1 else 0.

Definition boolToConfig (category id : string) (bBool : bool) (store : S) : bool * S :=
  BridgeSettingSetUint category id (duint_of_bool bBool) store.

Definition boolFromConfig (category id : string) (cfg : Configuration) (store : S)
    : bool * S :=
  match BridgeSettingGetUint category id store with
  | None =>
      match defaultBools cfg !! category with
      | Some defaults =>
          match defaults !! id with
          | Some ret =>
              let '(_, store) := boolToConfig category id ret store in
              (ret, store)
          | None => (false, store)
          end
      | None => (false, store)
      end
  | Some setting => (negb (setting =? 0), store)
  end.

Definition uintToConfig (category id : string) (i : Z) (store : S) : bool * S :=
  BridgeSettingSetUint category id i store.

Definition uintFromConfig (category id : string) (cfg : Configuration) (store : S)
    : Z * S :=
  match BridgeSettingGetUint category id store with
  | None =>
      match defaultUints cfg !! category with
      | Some defaults =>
          match defaults !! id with
          | Some setting =>
              let '(_, store) := uintToConfig category id setting store in
              (setting, store)
          | None => (0, store)
          end
      | None => (0, store)
      end
  | Some setting => (setting, store)
  end.

(** The store keeps what is written: a read answers the value last written
    under the same section and name, and a write under another section or
    name does not change it. *)
Definition keeps_writes : Prop :=
  (forall section name v store,
     BridgeSettingGetUint section name
       (snd (BridgeSettingSetUint section name v store)) = Some v)
  /\ (forall section name section' name' v store,
       (section, name) <> (section', name') ->
       BridgeSettingGetUint section name
         (snd (BridgeSettingSetUint section' name' v store))
       = BridgeSettingGetUint section name store).

(** [readBools]: the defaults, each setting then replaced by what
    [boolFromConfig] answers.  The loops take the [i]-th key anew in every
    round; the rounds assign to keys that exist, so the keys are those at
    the start, in order. *)
Definition readBools (cfg : Configuration) (store : S) : Configuration * S :=
  let '(Bools, store) :=
    foldl (fun '(Bools, store) category =>
             match Bools !! category with
             | Some currentBool =>
                 let '(currentBool, store) :=
                   foldl (fun '(currentBool, store) id =>
                            let '(b, store) := boolFromConfig category id cfg store in
                            (<[id := b]> currentBool, store))
                         (currentBool, store) (keys currentBool) in
                 (<[category := currentBool]> Bools, store)
             | None => (Bools, store)
             end)
          (defaultBools cfg, store) (keys (defaultBools cfg)) in
  (Conf Bools (Uints cfg) (defaultBools cfg) (defaultUints cfg) (noMoreMsgbox cfg),
   store).

Definition writeBools (cfg : Configuration) (store : S) : S :=
  foldl (fun store category =>
           match Bools cfg !! category with
           | Some currentBool =>
               foldl (fun store id =>
                        match currentBool !! id with
                        | Some b => snd (boolToConfig category id b store)
                        | None => store
                        end)
                     store (keys currentBool)
           | None => store
           end)
        store (keys (Bools cfg)).

Definition readUints (cfg : Configuration) (store : S) : Configuration * S :=
  let '(Uints, store) :=
    foldl (fun '(Uints, store) category =>
             match Uints !! category with
             | Some currentUint =>
                 let '(currentUint, store) :=
                   foldl (fun '(currentUint, store) id =>
                            let '(i, store) := uintFromConfig category id cfg store in
                            (<[id := i]> currentUint, store))
                         (currentUint, store) (keys currentUint) in
                 (<[category := currentUint]> Uints, store)
             | None => (Uints, store)
             end)
          (defaultUints cfg, store) (keys (defaultUints cfg)) in
  (Conf (Bools cfg) Uints (defaultBools cfg) (defaultUints cfg) (noMoreMsgbox cfg),
   store).

(** [writeUints]; [ConfigBool(x, y)] is [Config()->getBool(x, y)]. *)
Definition writeUints (cfg : Configuration) (answer : button) (store : S)
    : Configuration * list string * S :=
  let '(bSaveLoadTabOrder, cfg, shown) :=
    getBool "Miscellaneous" "LoadSaveTabOrder" cfg answer in
  let store :=
    foldl (fun store category =>
             match Uints cfg !! category with
             | Some currentUint =>
                 foldl (fun store id =>
                          if negb bSaveLoadTabOrder
                             && String.eqb category "TabOrder"
                             && bool_decide (is_Some (BridgeSettingGetUint category id store))
                          then store
                          else match currentUint !! id with
                               | Some i => snd (uintToConfig category id i store)
                               | None => store
                               end)
                       store (keys currentUint)
             | None => store
             end)
          store (keys (Uints cfg)) in
  (cfg, shown, store).

End WithBridge.

Arguments keeps_writes S {_}.

(** A store that keeps what is written: a finite map from section and name
    to value. *)
#[export] Instance map_bridge : Bridge (gmap (string * string) Z) := {|
  BridgeSettingGetUint section name store := store !! (section, name);
  BridgeSettingSetUint section name value store :=
    (true, <[(section, name) := value]> store)
|}.

End Settings.

(** ** Sample settings *)

Module SettingsSamples.
Import Settings.

(** Some of the defaults the constructor of [Configuration] sets up. *)
Definition default_bools : gmap string (gmap string bool) :=
  {[ "Engine"%string := {[ "ListAllPages"%string := false ]};
     "Miscellaneous"%string := {[ "LoadSaveTabOrder"%string := false ]};
     "Gui"%string := {[ "FpuRegistersLittleEndian"%string := false;
                        "SaveColumnOrder"%string := true ]} ]}.

Definition default_uints : gmap string (gmap string Z) :=
  {[ "HexDump"%string := {[ "DefaultView"%string := 0 ]};
     "TabOrder"%string := {[ "CPUTab"%string := 0; "LogTab"%string := 1;
                             "NotesTab"%string := 2 ]} ]}.

(** The configuration as the constructor leaves it when the store is empty,
    and after the user has moved the log tab to the front and switched
    LoadSaveTabOrder on. *)
Definition fresh : Configuration :=
  Conf default_bools default_uints default_bools default_uints false.

Definition rearranged : Configuration :=
  Conf (<[ "Miscellaneous"%string := {[ "LoadSaveTabOrder"%string := true ]} ]> default_bools)
       (<[ "TabOrder"%string := {[ "CPUTab"%string := 1; "LogTab"%string := 0;
                                   "NotesTab"%string := 2 ]} ]> default_uints)
       default_bools default_uints false.

(** A store that has a tab order from an earlier session. *)
Definition stored : gmap (string * string) Z :=
  {[ ("TabOrder"%string, "CPUTab"%string) := 2;
     ("TabOrder"%string, "LogTab"%string) := 0 ]}.

End SettingsSamples.

(** ** Sample strings *)

Module TextSamples.

Definition text (s : string) : list byte := String.list_byte_of_string s.

(** The array string ["run\1go\1Step"], and the value of [deflen] in
    [_global.h]. *)
Definition commands : list byte :=
  text "run" ++ [x01] ++ text "go" ++ [x01] ++ text "Step".

Definition deflen : nat := 1024.

Definition address : list byte := text "0x7ffe, Dead-beef h".

(** A shell that creates the link object and then refuses the file
    interface ([E_NOINTERFACE]), and a caller's buffer of 16 bytes. *)
Definition no_interface : Shortcut.shell :=
  Shortcut.Shell 0 (0x80004002 - 2 ^ 32) 0 0 0 [].

Definition path_buffer : list byte := repeat x00 16.

End TextSamples.

(** ** Sample files and stack contents, to run the probe on *)

Module Samples.
Import Prober.

(** The 64 bytes of a DOS header: the magic ["MZ"], zeros, and [e_lfanew]
    in its last four bytes. *)
Definition dos_header (lfanew : list byte) : list byte :=
  [x4d; x5a] ++ repeat x00 58 ++ lfanew.

(** The start of the NT headers: ["PE\0\0"] and the machine field. *)
Definition nt_start (machine : list byte) : list byte :=
  [x50; x45; x00; x00] ++ machine.

Definition i386 : list byte := [x4c; x01].
Definition amd64 : list byte := [Byte.x64; Byte.x86].

(** Minimal well-formed images, the NT headers right after the DOS header. *)
Definition image32 : list byte :=
  dos_header [x40; x00; x00; x00] ++ nt_start i386 ++ repeat x00 18.
Definition image64 : list byte :=
  dos_header [x40; x00; x00; x00] ++ nt_start amd64 ++ repeat x00 18.

(** [image32] cut off after the first byte of its NT signature: 65 bytes,
    [e_lfanew = 64]. *)
Definition cut_image : list byte := take 65 image32.

(** An image whose NT headers sit at offset 4096. *)
Definition far_image : list byte :=
  dos_header [x00; x10; x00; x00] ++ repeat x00 4032 ++ nt_start i386 ++ repeat x00 18.

(** Three characters of text. *)
Definition mzp : list byte := [x4d; x5a; x50].

Definition hello : list byte := String.list_byte_of_string "hello, world".

Definition disk : gmap string file :=
  list_to_map
    [("image32.exe"%string, File image32 true true);
     ("image64.exe"%string, File image64 true true);
     ("cut.exe"%string, File cut_image true true);
     ("far.exe"%string, File far_image true true);
     ("mzp.txt"%string, File mzp true true);
     ("hello.txt"%string, File hello true true);
     ("empty"%string, File [] true true);
     ("locked.exe"%string, File image32 false true);
     ("unreadable.exe"%string, File image32 true false)].

(** Stack memory holding zeros, and stack memory as an earlier probe of
    [image32] left it. *)
Definition zeros : memory := fun _ => x00.
Definition stale32 : memory := write_bytes zeros 0 image32.

(** Stack memory that happens to hold [2] where [e_lfanew] is loaded from
    and ["E\0\0"] with the i386 code from offset 3 on. *)
Definition crafted : memory :=
  write_bytes zeros 0
    ([x00; x00; x00; x45; x00; x00] ++ i386 ++ repeat x00 52 ++ [x02; x00; x00; x00]).

End Samples.

(** * Properties *)

(** ** Machine arithmetic and memory *)

Lemma wrap_int_small (z : Z) : int_range z -> wrap_int z = z.
Proof.
  unfold int_range, wrap_int, INT_MIN, INT_MAX. intros Hz.
  rewrite Z.mod_small; lia.
Qed.

Lemma wrap_int_in_range (z : Z) : int_range (wrap_int z).
Proof.
  unfold int_range, wrap_int, INT_MIN, INT_MAX.
  pose proof (Z.mod_pos_bound (z + 2 ^ 31) (2 ^ 32) ltac:(lia)). lia.
Qed.

Lemma wrap_int_shift (z k : Z) : wrap_int (wrap_int z + k) = wrap_int (z + k).
Proof.
  unfold wrap_int.
  replace ((z + 2 ^ 31) mod 2 ^ 32 - 2 ^ 31 + k + 2 ^ 31)
    with ((z + 2 ^ 31) mod 2 ^ 32 + k) by lia.
  replace (z + k + 2 ^ 31) with ((z + 2 ^ 31) + k) by lia.
  now rewrite Zplus_mod_idemp_l.
Qed.

Lemma wrap_incr_decr (c : Z) : int_range c -> wrap_int (wrap_int (c + 1) - 1) = c.
Proof.
  intros Hc. replace (wrap_int (c + 1) - 1) with (wrap_int (c + 1) + -1) by lia.
  rewrite wrap_int_shift. replace (c + 1 + -1) with c by lia.
  now apply wrap_int_small.
Qed.

Lemma wrap_decr_incr (c : Z) : int_range c -> wrap_int (wrap_int (c - 1) + 1) = c.
Proof.
  intros Hc. rewrite wrap_int_shift. replace (c - 1 + 1) with c by lia.
  now apply wrap_int_small.
Qed.

Lemma store_same (m : memory) (p : Z) (v : byte) : store m p v p = v.
Proof. unfold store. now rewrite Z.eqb_refl. Qed.

Lemma store_other (m : memory) (p a : Z) (v : byte) : a <> p -> store m p v a = m a.
Proof. unfold store. intros Hne. now destruct (Z.eqb_spec a p). Qed.

Lemma memset_outside (n : nat) : forall (m : memory) (p a : Z) (v : byte),
  a < p \/ p + Z.of_nat n <= a -> memset m p v n a = m a.
Proof.
  induction n as [|k IH]; intros m p a v Ha; [reflexivity|].
  cbn [memset]. rewrite IH by lia. apply store_other. lia.
Qed.

Lemma memset_inside (n : nat) : forall (m : memory) (p a : Z) (v : byte),
  p <= a < p + Z.of_nat n -> memset m p v n a = v.
Proof.
  induction n as [|k IH]; intros m p a v Ha; [lia|].
  cbn [memset]. destruct (Z.eq_dec a p) as [->|Hne].
  - rewrite memset_outside by lia. apply store_same.
  - apply IH. lia.
Qed.

(** ** Allocation tracker *)

Section TrackerFacts.
Import Tracker.
Context {H : Type} `{!Platform H}.

Implicit Types (w : world H) (n ptr : Z) (r : string).

Lemma emalloc_success w n r :
  n <> 0 -> fst (GlobalAlloc GMEM_FIXED n (heap w)) <> NULL ->
  emalloc n r w =
    Returned (fst (GlobalAlloc GMEM_FIXED n (heap w)))
             (after_emalloc w n (fst (GlobalAlloc GMEM_FIXED n (heap w)))
                                (snd (GlobalAlloc GMEM_FIXED n (heap w)))).
Proof.
  intros Hn Ha. unfold emalloc, bind, ASSERT_NONZERO, sys_GlobalAlloc.
  destruct (Z.eqb_spec n 0) as [|_]; [contradiction|].
  destruct (GlobalAlloc GMEM_FIXED n (heap w)) as [a h]. cbn in *.
  destruct (Z.eqb_spec a NULL) as [|_]; [contradiction|]. reflexivity.
Qed.

Lemma emalloc_failure w n r :
  n <> 0 -> fst (GlobalAlloc GMEM_FIXED n (heap w)) = NULL ->
  emalloc n r w =
    Exited 1 (World (emalloc_count w) (snd (GlobalAlloc GMEM_FIXED n (heap w)))
                    (mem w) (shown w ++ [oom_box])).
Proof.
  intros Hn Ha. unfold emalloc, bind, ASSERT_NONZERO, sys_GlobalAlloc.
  destruct (Z.eqb_spec n 0) as [|_]; [contradiction|].
  destruct (GlobalAlloc GMEM_FIXED n (heap w)) as [a h]. cbn in *.
  destruct (Z.eqb_spec a NULL) as [_|]; [|contradiction]. reflexivity.
Qed.

Lemma efree_run w ptr r : efree ptr r w = Returned tt (after_efree w ptr).
Proof. reflexivity. Qed.

Lemma emalloc_returned w n r (a : Z) (w' : world H) :
  n <> 0 -> emalloc n r w = Returned a w' ->
  a = fst (GlobalAlloc GMEM_FIXED n (heap w)) /\ a <> NULL /\
  w' = after_emalloc w n a (snd (GlobalAlloc GMEM_FIXED n (heap w))).
Proof.
  intros Hn Hrun.
  destruct (Z.eq_dec (fst (GlobalAlloc GMEM_FIXED n (heap w))) NULL) as [Hz|Hnz].
  - rewrite emalloc_failure in Hrun by assumption. discriminate.
  - rewrite emalloc_success in Hrun by assumption.
    injection Hrun as <- <-. auto.
Qed.

Lemma after_emalloc_zeroed w n (a : Z) (h : H) (i : Z) :
  0 <= i < n -> mem (after_emalloc w n a h) (a + i) = x00.
Proof.
  intros Hi. cbn. apply memset_inside. rewrite Z2Nat.id; lia.
Qed.

(** C1: for every size [n > 0] and reason [r], when [emalloc n r] hands out
    a buffer, releasing that buffer with [efree] brings [memleaks()] back to
    the value it had before the allocation. *)
Theorem efree_emalloc_restores_memleaks w n r :
  0 < n -> int_range (emalloc_count w) ->
  fst (GlobalAlloc GMEM_FIXED n (heap w)) <> NULL ->
  exists w',
    bind (emalloc n r) (fun p => bind (efree p r) (fun _ => memleaks)) w
      = Returned (emalloc_count w) w'
    /\ emalloc_count w' = emalloc_count w.
Proof.
  intros Hn Hc Ha. unfold bind at 1.
  rewrite emalloc_success by (assumption || lia).
  unfold bind, memleaks. rewrite efree_run. cbn.
  rewrite wrap_incr_decr by assumption.
  eexists; split; [reflexivity|]. cbn. now apply wrap_incr_decr.
Qed.

(** C2: [efree] decrements the counter whatever pointer it is given (null,
    live or already released): the call returns and [emalloc_count] is one
    less than before, with no guard keeping it from going negative.  The
    decrement is 32-bit; it is an exact [- 1] whenever the counter is above
    [INT_MIN]. *)
Theorem efree_decrements_unconditionally w ptr r :
  int_range (emalloc_count w) -> INT_MIN < emalloc_count w ->
  exists w',
    efree ptr r w = Returned tt w'
    /\ emalloc_count w' = wrap_int (emalloc_count w - 1)
    /\ emalloc_count w' = emalloc_count w - 1
    /\ (emalloc_count w <= 0 -> emalloc_count w' < 0).
Proof.
  intros Hc Hmin. exists (after_efree w ptr).
  assert (Hdec : emalloc_count (after_efree w ptr) = emalloc_count w - 1).
  { cbn. apply wrap_int_small. unfold int_range in *. lia. }
  repeat split; [exact Hdec | lia].
Qed.

Lemma erealloc_unfold w ptr n r :
  n <> 0 ->
  erealloc ptr n r w =
    if ptr =? NULL then emalloc n r w
    else bind (efree ptr r) (fun _ => emalloc n r) w.
Proof.
  intros Hn. unfold erealloc, bind at 1, ASSERT_NONZERO.
  destruct (Z.eqb_spec n 0) as [|_]; [contradiction|].
  now destruct (ptr =? NULL).
Qed.

(** C3: for a nonzero size, [erealloc] is release-then-allocate, in result
    and in every effect; on a null pointer it is [emalloc] and, when the
    allocation succeeds, the counter goes up by one; on a non-null pointer,
    when the allocation succeeds, the counter ends where it started and the
    buffer returned is all zero, whatever the old buffer held. *)
Theorem erealloc_is_release_then_allocate w ptr n r :
  0 < n -> int_range (emalloc_count w) ->
  erealloc ptr n r w = release_then_allocate ptr n r w
  /\ erealloc NULL n r w = emalloc n r w
  /\ (fst (GlobalAlloc GMEM_FIXED n (heap w)) <> NULL ->
      exists a w',
        erealloc NULL n r w = Returned a w' /\ a <> NULL
        /\ emalloc_count w' = wrap_int (emalloc_count w + 1)
        /\ (emalloc_count w < INT_MAX -> emalloc_count w' = emalloc_count w + 1))
  /\ (ptr <> NULL ->
      fst (GlobalAlloc GMEM_FIXED n (GlobalFree ptr (heap w))) <> NULL ->
      exists a w',
        erealloc ptr n r w = Returned a w' /\ a <> NULL
        /\ emalloc_count w' = emalloc_count w
        /\ forall i, 0 <= i < n -> mem w' (a + i) = x00).
Proof.
  intros Hn Hc. assert (Hn0 : n <> 0) by lia.
  split; [|split; [|split]].
  - rewrite erealloc_unfold by assumption. unfold release_then_allocate, NULL.
    now destruct ptr.
  - now rewrite erealloc_unfold.
  - intros Ha. rewrite erealloc_unfold by assumption. cbn [NULL Z.eqb].
    rewrite emalloc_success by assumption.
    do 2 eexists. split; [reflexivity|]. split; [assumption|].
    split; [reflexivity|]. intros Hmax. cbn.
    apply wrap_int_small. unfold int_range, INT_MAX in *. lia.
  - intros Hptr Ha. rewrite erealloc_unfold by assumption.
    destruct (Z.eqb_spec ptr NULL) as [|_]; [contradiction|].
    unfold bind. rewrite efree_run.
    rewrite (emalloc_success (after_efree w ptr)) by assumption.
    do 2 eexists. split; [reflexivity|]. split; [assumption|]. split.
    + cbn. now apply wrap_decr_incr.
    + intros i Hi. now apply after_emalloc_zeroed.
Qed.

(** C4: for every nonzero size [n], when [emalloc n r] returns a buffer,
    each of its [n] bytes is zero at that moment; and it does return one
    whenever the allocator answers a block. *)
Theorem emalloc_zero_initialized w n r :
  0 < n ->
  (forall a w', emalloc n r w = Returned a w' ->
     forall i, 0 <= i < n -> mem w' (a + i) = x00)
  /\ (fst (GlobalAlloc GMEM_FIXED n (heap w)) <> NULL ->
      exists a w',
        emalloc n r w = Returned a w'
        /\ forall i, 0 <= i < n -> mem w' (a + i) = x00).
Proof.
  intros Hn. assert (Hn0 : n <> 0) by lia. split.
  - intros a w' Hrun i Hi.
    destruct (emalloc_returned _ _ _ _ _ Hn0 Hrun) as (_ & _ & ->).
    now apply after_emalloc_zeroed.
  - intros Ha. rewrite emalloc_success by assumption.
    do 2 eexists. split; [reflexivity|].
    intros i Hi. now apply after_emalloc_zeroed.
Qed.

(** C5: for every nonzero size, [emalloc] either returns a non-null buffer,
    having counted it, or the process is gone: when the allocator answers
    [NULL] the error box is shown, [ExitProcess(1)] ends the run with the
    counter untouched, and nothing placed after the call is run.  No call
    returns [NULL]. *)
Theorem emalloc_returns_valid_or_exits w n r :
  n <> 0 ->
  (forall a w', emalloc n r w = Returned a w' -> a <> NULL)
  /\ (fst (GlobalAlloc GMEM_FIXED n (heap w)) <> NULL ->
      exists a w',
        emalloc n r w = Returned a w' /\ a <> NULL
        /\ emalloc_count w' = wrap_int (emalloc_count w + 1))
  /\ (fst (GlobalAlloc GMEM_FIXED n (heap w)) = NULL ->
      exists w',
        emalloc n r w = Exited 1 w'
        /\ shown w' = shown w ++ [oom_box]
        /\ emalloc_count w' = emalloc_count w
        /\ forall (B : Type) (k : Z -> M H B), bind (emalloc n r) k w = Exited 1 w').
Proof.
  intros Hn. split; [|split].
  - intros a w' Hrun. now destruct (emalloc_returned _ _ _ _ _ Hn Hrun) as (_ & ? & _).
  - intros Ha. rewrite emalloc_success by assumption.
    do 2 eexists. split; [reflexivity|]. split; [assumption|reflexivity].
  - intros Ha. eexists. split; [now apply emalloc_failure|].
    split; [reflexivity|]. split; [reflexivity|].
    intros B k. unfold bind. now rewrite emalloc_failure.
Qed.

End TrackerFacts.

(** *** The tracker on the bump allocator *)

Section TrackerRuns.
Import Tracker.

#[local] Existing Instance Bump.platform.

Lemma efree_emalloc_restores_memleaks_witness :
  exists w',
    bind (emalloc 16 "json:ptr") (fun p => bind (efree p "json:ptr") (fun _ => memleaks))
         Bump.boot = Returned 0 w'
    /\ emalloc_count w' = 0.
Proof.
  apply (@efree_emalloc_restores_memleaks Bump.heap Bump.platform Bump.boot 16 "json:ptr").
  - lia.
  - unfold int_range, INT_MIN, INT_MAX. cbn. lia.
  - vm_compute. discriminate.
Defined.

(** Releasing the null pointer in a fresh process leaves the counter
    at [-1]. *)
Lemma efree_decrements_unconditionally_witness :
  exists w',
    efree NULL "json:ptr" Bump.boot = Returned tt w'
    /\ emalloc_count w' = wrap_int (0 - 1)
    /\ emalloc_count w' = 0 - 1
    /\ (0 <= 0 -> emalloc_count w' < 0).
Proof.
  apply (@efree_decrements_unconditionally Bump.heap Bump.platform Bump.boot NULL "json:ptr").
  - unfold int_range, INT_MIN, INT_MAX. cbn. lia.
  - unfold INT_MIN. cbn. lia.
Defined.

(** Reallocating the one live buffer: a fresh zeroed buffer, the counter
    still [1]. *)
Lemma erealloc_is_release_then_allocate_witness :
  exists a w',
    erealloc 0x10000 32 "buffer" Bump.one_live = Returned a w' /\ a <> NULL
    /\ emalloc_count w' = 1
    /\ forall i, 0 <= i < 32 -> mem w' (a + i) = x00.
Proof.
  assert (Hn : 0 < 32) by lia.
  assert (Hc : int_range (emalloc_count Bump.one_live)).
  { unfold int_range, INT_MIN, INT_MAX. cbn. lia. }
  destruct (@erealloc_is_release_then_allocate Bump.heap Bump.platform
              Bump.one_live 0x10000 32 "buffer" Hn Hc) as (_ & _ & _ & Hlive).
  apply Hlive.
  - unfold NULL. lia.
  - vm_compute. discriminate.
Defined.

(** A buffer of 4096 bytes carved out of memory full of [0xCC]. *)
Lemma emalloc_zero_initialized_witness :
  exists a w',
    emalloc 4096 "buffer" Bump.boot = Returned a w'
    /\ forall i, 0 <= i < 4096 -> mem w' (a + i) = x00.
Proof.
  assert (Hn : 0 < 4096) by lia.
  destruct (@emalloc_zero_initialized Bump.heap Bump.platform
              Bump.boot 4096 "buffer" Hn) as (_ & Hok).
  apply Hok. vm_compute. discriminate.
Defined.

(** With the heap used up the process exits with code [1], the box shown
    and the counter as it was. *)
Lemma emalloc_returns_valid_or_exits_witness :
  exists w',
    emalloc 16 "buffer" Bump.exhausted = Exited 1 w'
    /\ shown w' = [oom_box]
    /\ emalloc_count w' = 3.
Proof.
  assert (Hn : 16 <> 0) by lia.
  destruct (@emalloc_returns_valid_or_exits Bump.heap Bump.platform
              Bump.exhausted 16 "buffer" Hn) as (_ & _ & Hexit).
  destruct Hexit as (w' & Hrun & Hbox & Hcount & _); [reflexivity|].
  exists w'. auto.
Defined.
End TrackerRuns.

(** ** Executable architecture probe *)

Section ProberFacts.
Import Prober.

Implicit Types (t : target) (fs : gmap string file) (stack data : memory)
  (name : string) (h : file).

Lemma write_bytes_outside (bs : list byte) : forall (m : memory) (p a : Z),
  a < p \/ p + Z.of_nat (length bs) <= a -> write_bytes m p bs a = m a.
Proof.
  induction bs as [|b bs IH]; intros m p a Ha; [reflexivity|].
  cbn [write_bytes length] in *. rewrite IH by lia. apply store_other. lia.
Qed.

Lemma write_bytes_inside (bs : list byte) : forall (m : memory) (p a : Z),
  p <= a < p + Z.of_nat (length bs) ->
  bs !! Z.to_nat (a - p) = Some (write_bytes m p bs a).
Proof.
  induction bs as [|b bs IH]; intros m p a Ha; cbn [write_bytes length] in *; [lia|].
  destruct (Z.eq_dec a p) as [->|Hne].
  - rewrite Z.sub_diag. cbn. rewrite write_bytes_outside by lia.
    now rewrite store_same.
  - replace (Z.to_nat (a - p)) with (S (Z.to_nat (a - (p + 1)))) by lia.
    cbn. apply IH. lia.
Qed.

Lemma GetFileSize_bounds h :
  0 <= GetFileSize h <= Z.of_nat (length (contents h)).
Proof.
  unfold GetFileSize.
  pose proof (Z.mod_pos_bound (Z.of_nat (length (contents h))) (2 ^ 32) ltac:(lia)).
  pose proof (Z.mod_le (Z.of_nat (length (contents h))) (2 ^ 32) ltac:(lia) ltac:(lia)).
  lia.
Qed.

Lemma read_size_min h : read_size h = Z.min (GetFileSize h) sizeof_data.
Proof.
  unfold read_size. destruct (Z.gtb_spec sizeof_data (GetFileSize h)); lia.
Qed.

Lemma read_size_bounds h :
  0 <= read_size h <= sizeof_data /\ read_size h <= Z.of_nat (length (contents h)).
Proof.
  rewrite read_size_min. pose proof (GetFileSize_bounds h).
  unfold sizeof_data. lia.
Qed.

(** A successful [ReadFile] of [read_size h] bytes reads exactly that many,
    puts the start of the file at the start of the buffer and leaves the
    rest of the buffer as it was. *)
Lemma ReadFile_spec h stack data (read : Z) :
  ReadFile h stack (read_size h) = Some (data, read) ->
  readable h = true
  /\ read = read_size h
  /\ (forall off, 0 <= off < read -> contents h !! Z.to_nat off = Some (data off))
  /\ (forall off, off < 0 \/ read <= off -> data off = stack off).
Proof.
  unfold ReadFile. destruct (readable h); [|discriminate].
  intros [= <- <-]. pose proof (read_size_bounds h) as [Hrs Hlen].
  assert (Hlt : length (take (Z.to_nat (read_size h)) (contents h))
                = Z.to_nat (read_size h)).
  { rewrite length_take. lia. }
  rewrite Hlt, Z2Nat.id by lia.
  split; [reflexivity|]. split; [reflexivity|]. split.
  - intros off Hoff.
    rewrite <- (lookup_take_lt (contents h) (Z.to_nat (read_size h))) by lia.
    replace (Z.to_nat off) with (Z.to_nat (off - 0)) by (f_equal; lia).
    apply write_bytes_inside. lia.
  - intros off Hoff. apply write_bytes_outside. lia.
Qed.

Lemma ReadFile_fails h stack (n : Z) :
  ReadFile h stack n = None <-> readable h = false.
Proof. unfold ReadFile. destruct (readable h); split; congruence. Qed.

Lemma GetFileArchitecture_no_handle t fs stack name :
  CreateFileW fs name = None -> GetFileArchitecture t fs stack name = notfound.
Proof.
  intros Hopen. unfold GetFileArchitecture, GetFileArchitecture_loads.
  now rewrite Hopen.
Qed.

Lemma GetFileArchitecture_read_failed t fs stack name h :
  CreateFileW fs name = Some h -> ReadFile h stack (read_size h) = None ->
  GetFileArchitecture t fs stack name = notfound.
Proof.
  intros Hopen Hread. unfold GetFileArchitecture, GetFileArchitecture_loads.
  rewrite Hopen. fold (read_size h). now rewrite Hread.
Qed.

Lemma fst_ld_bind {A B} (m : Ld A) (k : A -> Ld B) :
  fst (ld_bind m k) = fst (k (fst m)).
Proof. unfold ld_bind. destruct m as [a l1]. cbn. now destruct (k a). Qed.

Lemma snd_ld_bind {A B} (m : Ld A) (k : A -> Ld B) :
  snd (ld_bind m k) = snd m ++ snd (k (fst m)).
Proof. unfold ld_bind. destruct m as [a l1]. cbn. now destruct (k a). Qed.

Lemma GetFileArchitecture_read_ok t fs stack name h data (read : Z) :
  CreateFileW fs name = Some h -> ReadFile h stack (read_size h) = Some (data, read) ->
  GetFileArchitecture t fs stack name = header_verdict t data (read_size h).
Proof.
  intros Hopen Hread. unfold GetFileArchitecture, GetFileArchitecture_loads.
  rewrite Hopen. fold (read_size h). rewrite Hread.
  change (0 + off_e_magic) with off_e_magic.
  change (0 + off_e_lfanew) with off_e_lfanew.
  unfold header_verdict.
  rewrite fst_ld_bind. fold (e_magic data).
  destruct (e_magic data =? IMAGE_DOS_SIGNATURE); [|reflexivity].
  rewrite fst_ld_bind. fold (e_lfanew data).
  destruct (cast_size_t t (e_lfanew data) <? read_size h); [|reflexivity].
  rewrite fst_ld_bind. fold (Signature data (e_lfanew data)).
  destruct (Signature data (e_lfanew data) =? IMAGE_NT_SIGNATURE); [|reflexivity].
  rewrite fst_ld_bind. fold (Machine data (e_lfanew data)). cbn [andb].
  destruct (Machine data (e_lfanew data) =? IMAGE_FILE_MACHINE_I386); [reflexivity|].
  now destruct (Machine data (e_lfanew data) =? IMAGE_FILE_MACHINE_AMD64).
Qed.

(** C6: the probe always answers one of the four classifications; it
    answers [notfound] when the file cannot be opened and when the read
    fails, and any other answer means the file was opened and read. *)
Theorem GetFileArchitecture_total_contract t fs stack name :
  let r := GetFileArchitecture t fs stack name in
  (r = notfound \/ r = invalid \/ r = x32 \/ r = x64)
  /\ (CreateFileW fs name = None -> r = notfound)
  /\ (forall h, CreateFileW fs name = Some h ->
        ReadFile h stack (read_size h) = None -> r = notfound)
  /\ (forall h data (read : Z), CreateFileW fs name = Some h ->
        ReadFile h stack (read_size h) = Some (data, read) -> r <> notfound)
  /\ (r <> notfound ->
        exists h data (read : Z),
          CreateFileW fs name = Some h
          /\ ReadFile h stack (read_size h) = Some (data, read)).
Proof.
  cbv zeta. split; [|split; [|split; [|split]]].
  - destruct (GetFileArchitecture t fs stack name); auto.
  - apply GetFileArchitecture_no_handle.
  - intros h. apply GetFileArchitecture_read_failed.
  - intros h data read Hopen Hread.
    rewrite (GetFileArchitecture_read_ok _ _ _ _ _ _ _ Hopen Hread).
    unfold header_verdict.
    repeat match goal with |- context [if ?c then _ else _] => destruct c end;
      discriminate.
  - intros Hr. destruct (CreateFileW fs name) as [h|] eqn:Hopen.
    + destruct (ReadFile h stack (read_size h)) as [[data read]|] eqn:Hread.
      * eauto.
      * now rewrite (GetFileArchitecture_read_failed _ _ _ _ _ Hopen Hread) in Hr.
    + now rewrite (GetFileArchitecture_no_handle _ _ _ _ Hopen) in Hr.
Qed.

(** C8: after a successful read, when the DOS magic, the [e_lfanew] bound
    and the NT signature all pass, the machine field alone decides: i386
    gives [x32], AMD64 gives [x64], anything else [invalid]; when one of the
    three checks fails the answer is [invalid]. *)
Theorem classification_by_machine t fs stack name h data (read : Z) :
  CreateFileW fs name = Some h ->
  ReadFile h stack (read_size h) = Some (data, read) ->
  let r := GetFileArchitecture t fs stack name in
  let pnth := e_lfanew data in
  (e_magic data = IMAGE_DOS_SIGNATURE -> cast_size_t t pnth < read ->
   Signature data pnth = IMAGE_NT_SIGNATURE ->
     (Machine data pnth = IMAGE_FILE_MACHINE_I386 -> r = x32)
     /\ (Machine data pnth = IMAGE_FILE_MACHINE_AMD64 -> r = x64)
     /\ (Machine data pnth <> IMAGE_FILE_MACHINE_I386 ->
         Machine data pnth <> IMAGE_FILE_MACHINE_AMD64 -> r = invalid))
  /\ (~ (e_magic data = IMAGE_DOS_SIGNATURE /\ cast_size_t t pnth < read
         /\ Signature data pnth = IMAGE_NT_SIGNATURE) -> r = invalid).
Proof.
  intros Hopen Hread. cbv zeta.
  rewrite (GetFileArchitecture_read_ok _ _ _ _ _ _ _ Hopen Hread).
  destruct (ReadFile_spec _ _ _ _ Hread) as (_ & -> & _).
  unfold header_verdict. split.
  - intros Hmagic Hbound Hsig.
    rewrite Hmagic, Hsig, !Z.eqb_refl.
    destruct (Z.ltb_spec (cast_size_t t (e_lfanew data)) (read_size h)); [|lia].
    cbn [andb]. split; [|split].
    + now intros ->.
    + now intros ->.
    + intros H32 H64.
      destruct (Z.eqb_spec (Machine data (e_lfanew data)) IMAGE_FILE_MACHINE_I386);
        [contradiction|].
      now destruct (Z.eqb_spec (Machine data (e_lfanew data)) IMAGE_FILE_MACHINE_AMD64).
  - intros Hnot.
    destruct (Z.eqb_spec (e_magic data) IMAGE_DOS_SIGNATURE); [|reflexivity].
    destruct (Z.ltb_spec (cast_size_t t (e_lfanew data)) (read_size h)); [|reflexivity].
    destruct (Z.eqb_spec (Signature data (e_lfanew data)) IMAGE_NT_SIGNATURE);
      [|reflexivity].
    exfalso. apply Hnot. auto.
Qed.

(** *** Ranges of the loaded fields *)

Lemma lor_below (n a b : Z) :
  0 <= n -> 0 <= a < 2 ^ n -> 0 <= b < 2 ^ n -> 0 <= Z.lor a b < 2 ^ n.
Proof.
  intros Hn Ha Hb. split; [apply Z.lor_nonneg; lia|].
  destruct (Z.eq_dec a 0) as [->|Ha0]; [rewrite Z.lor_0_l; lia|].
  destruct (Z.eq_dec b 0) as [->|Hb0]; [rewrite Z.lor_0_r; lia|].
  assert (Hpos : 0 < Z.lor a b).
  { assert (0 <= Z.lor a b) by (apply Z.lor_nonneg; lia).
    assert (Z.lor a b <> 0) by (rewrite Z.lor_eq_0_iff; lia). lia. }
  apply Z.log2_lt_pow2; [assumption|].
  rewrite Z.log2_lor by lia.
  apply Z.max_lub_lt; apply Z.log2_lt_pow2; lia.
Qed.

Lemma byte_val_range (b : byte) : 0 <= byte_val b < 2 ^ 8.
Proof.
  unfold byte_val. pose proof (Byte.to_N_bounded b). lia.
Qed.

Lemma load16_range (m : memory) (off : Z) : 0 <= fst (load16 m off) < 2 ^ 16.
Proof.
  cbn [load16 load8 ld_bind ld_ret fst].
  pose proof (byte_val_range (m off)). pose proof (byte_val_range (m (off + 1))).
  apply lor_below; [lia|lia|]. rewrite Z.shiftl_mul_pow2 by lia. lia.
Qed.

Lemma load32_range (m : memory) (off : Z) : 0 <= fst (load32 m off) < 2 ^ 32.
Proof.
  unfold load32. rewrite !fst_ld_bind. cbn [ld_ret fst].
  pose proof (load16_range m off). pose proof (load16_range m (off + 2)).
  apply lor_below; [lia|lia|]. rewrite Z.shiftl_mul_pow2 by lia. lia.
Qed.

Lemma to_LONG_range (u : Z) : 0 <= u < 2 ^ 32 -> - 2 ^ 31 <= to_LONG u < 2 ^ 31.
Proof. unfold to_LONG. intros Hu. destruct (Z.ltb_spec u (2 ^ 31)); lia. Qed.

Lemma e_lfanew_range (data : memory) : - 2 ^ 31 <= e_lfanew data < 2 ^ 31.
Proof. apply to_LONG_range, load32_range. Qed.

(** [(size_t)x < readSize] for a [LONG] [x] and a size of at most [2^31]:
    a negative [x] converts to a value far above. *)
Lemma cast_size_t_lt (t : target) (x rs : Z) :
  - 2 ^ 31 <= x < 2 ^ 31 -> 0 <= rs <= 2 ^ 31 ->
  (cast_size_t t x < rs <-> 0 <= x < rs).
Proof.
  intros Hx Hrs. unfold cast_size_t.
  assert (Hbits : 2 ^ 32 <= 2 ^ size_t_bits t) by (destruct t; cbn; lia).
  destruct (Z_lt_le_dec x 0) as [Hneg|Hpos].
  - replace (x mod 2 ^ size_t_bits t) with (x + 2 ^ size_t_bits t); [lia|].
    rewrite <- (Z_mod_plus_full x 1 (2 ^ size_t_bits t)).
    rewrite Z.mod_small; lia.
  - rewrite Z.mod_small; lia.
Qed.

(** *** Fields of the file against fields of the buffer *)

Lemma file_u8_data h stack data (read off : Z) :
  ReadFile h stack (read_size h) = Some (data, read) ->
  0 <= off < read ->
  file_u8 (contents h) off = Some (fst (load8 data off)).
Proof.
  intros Hread Hoff. destruct (ReadFile_spec _ _ _ _ Hread) as (_ & _ & Hin & _).
  unfold file_u8. destruct (Z.ltb_spec off 0); [lia|].
  now rewrite (Hin off Hoff).
Qed.

Lemma file_u16_data h stack data (read off : Z) :
  ReadFile h stack (read_size h) = Some (data, read) ->
  0 <= off -> off + 2 <= read ->
  file_u16 (contents h) off = Some (fst (load16 data off)).
Proof.
  intros Hread Hlo Hhi. unfold file_u16.
  rewrite (file_u8_data _ _ _ _ off Hread), (file_u8_data _ _ _ _ (off + 1) Hread) by lia.
  reflexivity.
Qed.

Lemma file_u32_data h stack data (read off : Z) :
  ReadFile h stack (read_size h) = Some (data, read) ->
  0 <= off -> off + 4 <= read ->
  file_u32 (contents h) off = Some (fst (load32 data off)).
Proof.
  intros Hread Hlo Hhi. unfold file_u32.
  rewrite (file_u16_data _ _ _ _ off Hread), (file_u16_data _ _ _ _ (off + 2) Hread) by lia.
  unfold load32. rewrite !fst_ld_bind. reflexivity.
Qed.

Lemma take_agree {A} (n m : nat) (l l' : list A) :
  (n <= m)%nat -> take m l = take m l' -> take n l = take n l'.
Proof.
  intros Hnm Heq.
  rewrite <- (Nat.min_l n m Hnm), <- !take_take. now rewrite Heq.
Qed.

(** C7: a successful read takes [min(fileSize, 4096)] bytes from the start
    of the file, and [e_lfanew] is checked against that count: with a valid
    DOS magic and an [e_lfanew] that is not below the number of bytes read,
    the answer is [invalid]; so is it for any [e_lfanew] at or past 4096,
    and, read off the file's own header, for any file of at least 64 bytes
    read whose [e_lfanew] is negative or not below the count.  Two files
    that agree on their first 4096 bytes and on the count get the same
    answer. *)
Theorem e_lfanew_checked_against_bytes_read t fs stack name h data (read : Z) :
  CreateFileW fs name = Some h ->
  ReadFile h stack (read_size h) = Some (data, read) ->
  let r := GetFileArchitecture t fs stack name in
  read = Z.min (GetFileSize h) sizeof_data
  /\ (forall off, 0 <= off < read -> contents h !! Z.to_nat off = Some (data off))
  /\ (e_magic data = IMAGE_DOS_SIGNATURE ->
      ~ cast_size_t t (e_lfanew data) < read -> r = invalid)
  /\ (sizeof_data <= cast_size_t t (e_lfanew data) -> r = invalid)
  /\ (forall e, off_e_lfanew + 4 <= read ->
        file_u16 (contents h) off_e_magic = Some IMAGE_DOS_SIGNATURE ->
        file_u32 (contents h) off_e_lfanew = Some e ->
        ~ 0 <= to_LONG e < read -> r = invalid)
  /\ (forall h', share_read h' = true -> readable h' = true ->
        read_size h' = read_size h ->
        take (Z.to_nat sizeof_data) (contents h')
          = take (Z.to_nat sizeof_data) (contents h) ->
        GetFileArchitecture t (<[name := h']> fs) stack name = r).
Proof.
  intros Hopen Hread. cbv zeta.
  rewrite (GetFileArchitecture_read_ok _ _ _ _ _ _ _ Hopen Hread).
  destruct (ReadFile_spec _ _ _ _ Hread) as (Hrd & Hcount & Hin & _).
  pose proof (read_size_bounds h) as [Hrs _]. unfold sizeof_data in Hrs.
  assert (Hover : ~ cast_size_t t (e_lfanew data) < read ->
                  header_verdict t data (read_size h) = invalid).
  { intros Hnot. unfold header_verdict.
    destruct (Z.ltb_spec (cast_size_t t (e_lfanew data)) (read_size h)); [lia|].
    now rewrite andb_false_r. }
  split; [now rewrite Hcount, read_size_min|].
  split; [exact Hin|]. split; [auto|].
  split; [intros Hpast; apply Hover; unfold sizeof_data in *; lia|]. split.
  - intros e Hlen Hmagic He Hout. apply Hover.
    rewrite (file_u32_data _ _ _ _ off_e_lfanew Hread) in He
      by (unfold off_e_lfanew in *; lia).
    injection He as <-. fold (e_lfanew data) in Hout.
    rewrite cast_size_t_lt; [assumption|apply e_lfanew_range|lia].
  - intros h' Hshare Hrd' Hsize Hprefix.
    assert (Hopen' : CreateFileW (<[name := h']> fs) name = Some h').
    { unfold CreateFileW. now rewrite lookup_insert_eq, Hshare. }
    assert (Hread' : ReadFile h' stack (read_size h') = Some (data, read)).
    { unfold ReadFile in *. rewrite Hrd in Hread. rewrite Hrd', Hsize.
      rewrite (take_agree (Z.to_nat (read_size h)) (Z.to_nat sizeof_data) _ _
                 ltac:(unfold sizeof_data; lia) Hprefix).
      exact Hread. }
    rewrite (GetFileArchitecture_read_ok _ _ _ _ _ _ _ Hopen' Hread').
    now rewrite Hsize.
Qed.

(** *** Files the probe gets right whatever the stack holds *)

Lemma cast_size_t_nonneg t (x : Z) : 0 <= cast_size_t t x.
Proof.
  unfold cast_size_t. apply Z.mod_pos_bound. destruct t; cbn; lia.
Qed.

(** A zero-byte file that can be opened and read is [invalid]. *)
Lemma GetFileArchitecture_empty_file t fs stack name h :
  CreateFileW fs name = Some h -> readable h = true -> contents h = [] ->
  GetFileArchitecture t fs stack name = invalid.
Proof.
  intros Hopen Hrd Hnil.
  assert (Hrs : read_size h = 0).
  { rewrite read_size_min. unfold GetFileSize. rewrite Hnil. reflexivity. }
  assert (Hread : ReadFile h stack (read_size h) = Some (stack, 0)).
  { unfold ReadFile. rewrite Hrd, Hrs, Hnil. reflexivity. }
  rewrite (GetFileArchitecture_read_ok _ _ _ _ _ _ _ Hopen Hread), Hrs.
  unfold header_verdict. pose proof (cast_size_t_nonneg t (e_lfanew stack)).
  destruct (Z.ltb_spec (cast_size_t t (e_lfanew stack)) 0); [lia|].
  now rewrite andb_false_r.
Qed.

(** A file of two bytes or more that does not start with ["MZ"] is
    [invalid]. *)
Lemma GetFileArchitecture_not_MZ t fs stack name h data (read : Z) :
  CreateFileW fs name = Some h ->
  ReadFile h stack (read_size h) = Some (data, read) ->
  2 <= read -> file_u16 (contents h) off_e_magic <> Some IMAGE_DOS_SIGNATURE ->
  GetFileArchitecture t fs stack name = invalid.
Proof.
  intros Hopen Hread Hlen Hmagic.
  rewrite (GetFileArchitecture_read_ok _ _ _ _ _ _ _ Hopen Hread).
  rewrite (file_u16_data _ _ _ _ off_e_magic Hread) in Hmagic
    by (unfold off_e_magic; lia).
  unfold header_verdict. fold (e_magic data) in Hmagic.
  destruct (Z.eqb_spec (e_magic data) IMAGE_DOS_SIGNATURE) as [Heq|]; [|reflexivity].
  now rewrite Heq in Hmagic.
Qed.

Lemma file_u8_take (bs : list byte) (n : nat) (off : Z) :
  off < Z.of_nat n -> file_u8 (take n bs) off = file_u8 bs off.
Proof.
  intros Hoff. unfold file_u8. destruct (Z.ltb_spec off 0); [reflexivity|].
  rewrite lookup_take_lt by lia. reflexivity.
Qed.

Lemma file_u16_take (bs : list byte) (n : nat) (off : Z) :
  off + 2 <= Z.of_nat n -> file_u16 (take n bs) off = file_u16 bs off.
Proof.
  intros Hoff. unfold file_u16. now rewrite !file_u8_take by lia.
Qed.

Lemma file_u32_take (bs : list byte) (n : nat) (off : Z) :
  off + 4 <= Z.of_nat n -> file_u32 (take n bs) off = file_u32 bs off.
Proof.
  intros Hoff. unfold file_u32. now rewrite !file_u16_take by lia.
Qed.

(** When the read covers the DOS header and, for a header that passes the
    first two checks, the signature and machine fields as well, the code
    answers what the specification's reading of the file's bytes gives. *)
Lemma GetFileArchitecture_agrees_when_fields_read t fs stack name h data (read : Z) :
  CreateFileW fs name = Some h ->
  ReadFile h stack (read_size h) = Some (data, read) ->
  Z.of_nat (length (contents h)) < 2 ^ 32 ->
  off_e_lfanew + 4 <= read ->
  (e_magic data = IMAGE_DOS_SIGNATURE -> 0 <= e_lfanew data < read ->
   e_lfanew data + 6 <= read) ->
  GetFileArchitecture t fs stack name
    = match parse_header (contents h) with Some a => a | None => invalid end.
Proof.
  intros Hopen Hread Hsmall Hdos Hnt.
  rewrite (GetFileArchitecture_read_ok _ _ _ _ _ _ _ Hopen Hread).
  destruct (ReadFile_spec _ _ _ _ Hread) as (_ & Hcount & _).
  pose proof (read_size_bounds h) as [Hrs _]. unfold sizeof_data in Hrs.
  assert (Hlen : Z.of_nat (length (take (Z.to_nat sizeof_data) (contents h))) = read).
  { rewrite length_take, Hcount, read_size_min. unfold GetFileSize.
    rewrite Z.mod_small by lia. unfold sizeof_data. lia. }
  assert (Hdos' : 64 <= read) by (unfold off_e_lfanew in Hdos; lia).
  unfold parse_header, header_verdict. rewrite Hlen.
  set (prefix := take (Z.to_nat sizeof_data) (contents h)).
  assert (Hn : Z.of_nat (Z.to_nat sizeof_data) = 4096) by reflexivity.
  assert (Hmagic : file_u16 prefix off_e_magic = Some (e_magic data)).
  { unfold prefix, e_magic, off_e_magic. rewrite file_u16_take by lia.
    apply (file_u16_data _ _ _ _ 0 Hread); lia. }
  assert (Hlfanew : to_LONG <$> file_u32 prefix off_e_lfanew = Some (e_lfanew data)).
  { unfold prefix, e_lfanew, off_e_lfanew. rewrite file_u32_take by lia.
    now rewrite (file_u32_data _ _ _ _ 60 Hread) by lia. }
  rewrite Hmagic. cbn [mbind option_bind].
  destruct (Z.eqb_spec (e_magic data) IMAGE_DOS_SIGNATURE) as [Hm|]; [|reflexivity].
  rewrite Hlfanew. cbn [mbind option_bind].
  pose proof (e_lfanew_range data) as Hrange.
  pose proof (cast_size_t_lt t (e_lfanew data) read Hrange ltac:(lia)) as Hcast.
  rewrite <- Hcount.
  destruct (Z.ltb_spec (cast_size_t t (e_lfanew data)) read) as [Hlt|Hge].
  - apply Hcast in Hlt. specialize (Hnt Hm Hlt).
    destruct (Z.leb_spec 0 (e_lfanew data)); [|lia].
    destruct (Z.ltb_spec (e_lfanew data) read); [|lia]. cbn [andb].
    assert (Hsig : file_u32 prefix (e_lfanew data + off_Signature)
                   = Some (Signature data (e_lfanew data))).
    { unfold prefix, Signature, off_Signature. rewrite file_u32_take by lia.
      apply (file_u32_data _ _ _ _ _ Hread); lia. }
    assert (Hmach : file_u16 prefix (e_lfanew data + off_FileHeader_Machine)
                    = Some (Machine data (e_lfanew data))).
    { unfold prefix, Machine, off_FileHeader_Machine. rewrite file_u16_take by lia.
      apply (file_u16_data _ _ _ _ _ Hread); lia. }
    rewrite Hsig. cbn [mbind option_bind].
    destruct (Signature data (e_lfanew data) =? IMAGE_NT_SIGNATURE); [|reflexivity].
    rewrite Hmach. cbn [mbind option_bind].
    destruct (Machine data (e_lfanew data) =? IMAGE_FILE_MACHINE_I386); [reflexivity|].
    now destruct (Machine data (e_lfanew data) =? IMAGE_FILE_MACHINE_AMD64).
  - cbn [andb].
    destruct (Z.leb_spec 0 (e_lfanew data)); [|reflexivity].
    destruct (Z.ltb_spec (e_lfanew data) read); [|reflexivity].
    assert (cast_size_t t (e_lfanew data) < read) by (apply Hcast; lia). lia.
Qed.
End ProberFacts.

(** *** The probe on the sample files *)

Section ProberRuns.
Import Prober Samples.

Example probe_image32 : GetFileArchitecture Win32 disk zeros "image32.exe" = x32.
Proof. vm_compute. reflexivity. Qed.

Example probe_image64 : GetFileArchitecture Win64 disk zeros "image64.exe" = x64.
Proof. vm_compute. reflexivity. Qed.

Example probe_missing : GetFileArchitecture Win64 disk zeros "missing.exe" = notfound.
Proof. vm_compute. reflexivity. Qed.

Example probe_locked : GetFileArchitecture Win64 disk stale32 "locked.exe" = notfound.
Proof. vm_compute. reflexivity. Qed.

Example probe_unreadable :
  GetFileArchitecture Win64 disk stale32 "unreadable.exe" = notfound.
Proof. vm_compute. reflexivity. Qed.

Example probe_hello : GetFileArchitecture Win64 disk crafted "hello.txt" = invalid.
Proof. vm_compute. reflexivity. Qed.

Example probe_empty : GetFileArchitecture Win64 disk stale32 "empty" = invalid.
Proof. vm_compute. reflexivity. Qed.

Lemma open_far_image : CreateFileW disk "far.exe" = Some (File far_image true true).
Proof. vm_compute. reflexivity. Qed.

Lemma open_image32 : CreateFileW disk "image32.exe" = Some (File image32 true true).
Proof. vm_compute. reflexivity. Qed.

Lemma open_empty : CreateFileW disk "empty" = Some (File [] true true).
Proof. vm_compute. reflexivity. Qed.

(** [far.exe] keeps a well-formed NT header at offset 4096, outside the
    window: the probe answers [invalid]. *)
Lemma e_lfanew_checked_against_bytes_read_witness :
  GetFileArchitecture Win64 disk zeros "far.exe" = invalid.
Proof.
  pose (h := File far_image true true).
  pose (data := write_bytes zeros 0 (take (Z.to_nat 4096) far_image)).
  assert (Hread : ReadFile h zeros (read_size h) = Some (data, 4096)) by reflexivity.
  destruct (e_lfanew_checked_against_bytes_read Win64 disk zeros "far.exe"
              h data 4096 open_far_image Hread) as (_ & _ & _ & Hpast & _).
  apply Hpast. apply Z.leb_le. vm_compute. reflexivity.
Defined.

(** [image32.exe] passes the three checks and carries the i386 code. *)
Lemma classification_by_machine_witness :
  GetFileArchitecture Win64 disk zeros "image32.exe" = x32.
Proof.
  pose (h := File image32 true true).
  pose (data := write_bytes zeros 0 (take (Z.to_nat 88) image32)).
  assert (Hread : ReadFile h zeros (read_size h) = Some (data, 88)) by reflexivity.
  destruct (classification_by_machine Win64 disk zeros "image32.exe"
              h data 88 open_image32 Hread) as [Hpass _].
  destruct Hpass as (H32 & _ & _).
  - vm_compute. reflexivity.
  - apply Z.ltb_lt. vm_compute. reflexivity.
  - vm_compute. reflexivity.
  - apply H32. vm_compute. reflexivity.
Defined.

(** C9: the claim asks [invalid] for every readable file that does not parse
    as an executable header.  [cut.exe] is such a file (65 bytes, cut off
    one byte into the NT signature; it opens and all of it is read).  With
    the stack as a probe of [image32.exe] leaves it ([stale32]), the code
    answers [x32] for it, on either build: the rest of the signature and
    the machine field are taken from the buffer past the bytes read. *)
Theorem GetFileArchitecture_cut_image_on_stale_stack :
  ReadFile (File image32 true true) zeros (read_size (File image32 true true))
    = Some (stale32, 88)
  /\ CreateFileW disk "cut.exe" = Some (File cut_image true true)
  /\ (exists data,
        ReadFile (File cut_image true true) stale32
                 (read_size (File cut_image true true)) = Some (data, 65))
  /\ recognized_header cut_image = false
  /\ GetFileArchitecture Win64 disk stale32 "cut.exe" = x32
  /\ GetFileArchitecture Win32 disk stale32 "cut.exe" = x32.
Proof.
  split; [reflexivity|].
  split; [vm_compute; reflexivity|].
  split; [eexists; reflexivity|].
  repeat split; vm_compute; reflexivity.
Qed.

(** C10: the loads of [GetFileArchitecture] are not confined to the bytes
    read.  With [e_lfanew] one below the count ([cut.exe]: 65 bytes read,
    [e_lfanew = 64]) offsets 65 to 69 are loaded; with a file shorter than
    the DOS header ([mzp.txt]: 3 bytes read) offsets 60 to 63 and 3 to 7
    are; in both the answer changes with the stack contents, the file
    staying the same.  With a zero-byte file the DOS magic is loaded from
    offsets 0 and 1 though nothing was read. *)
Theorem header_loads_escape_bytes_read :
  ~ (forall t fs stack name, loads_within_read t fs stack name)
  /\ (read_size (File cut_image true true) = 65
      /\ to_LONG <$> file_u32 cut_image off_e_lfanew = Some 64
      /\ inspected Win64 disk stale32 "cut.exe"
         = [0; 1; 60; 61; 62; 63; 64; 65; 66; 67; 68; 69]
      /\ GetFileArchitecture Win64 disk stale32 "cut.exe" = x32
      /\ GetFileArchitecture Win64 disk zeros "cut.exe" = invalid)
  /\ (read_size (File mzp true true) = 3
      /\ inspected Win64 disk crafted "mzp.txt"
         = [0; 1; 60; 61; 62; 63; 2; 3; 4; 5; 6; 7]
      /\ GetFileArchitecture Win64 disk crafted "mzp.txt" = x32
      /\ GetFileArchitecture Win64 disk zeros "mzp.txt" = invalid)
  /\ (read_size (File [] true true) = 0
      /\ forall t stack, exists rest,
           inspected t disk stack "empty" = 0 :: 1 :: rest).
Proof.
  split; [|split; [|split]].
  - intros Hall.
    assert (Hread : ReadFile (File [] true true) zeros
                             (read_size (File [] true true)) = Some (zeros, 0))
      by reflexivity.
    pose proof (Hall Win64 disk zeros "empty" _ _ _ open_empty Hread) as Hin.
    assert (Hloads : inspected Win64 disk zeros "empty" = [0; 1])
      by (vm_compute; reflexivity).
    rewrite Hloads in Hin. inversion Hin as [|? ? Hhd _]. lia.
  - repeat split; vm_compute; reflexivity.
  - repeat split; vm_compute; reflexivity.
  - split; [reflexivity|]. intros t stack.
    unfold inspected, GetFileArchitecture_loads. rewrite open_empty.
    change (ReadFile (File [] true true) stack
              (if sizeof_data >? GetFileSize (File [] true true)
               then GetFileSize (File [] true true) else sizeof_data))
      with (Some (stack, 0)).
    cbv beta iota zeta. rewrite snd_ld_bind. eexists. reflexivity.
Qed.
End ProberRuns.

(** ** More on the allocation tracker: call sequences and the bytes written *)

Section TrackerSequences.
Import Tracker.
Context {H : Type} `{!Platform H}.

Implicit Types (w : world H) (n ptr : Z) (r : string).

Lemma emalloc_zero_size w r : emalloc 0 r w = AssertFailed w.
Proof. reflexivity. Qed.

Lemma emalloc_count_after w n r (a : Z) (w' : world H) :
  emalloc n r w = Returned a w' ->
  emalloc_count w' = wrap_int (emalloc_count w + 1).
Proof.
  intros Hrun. destruct (Z.eq_dec n 0) as [->|Hn].
  - rewrite emalloc_zero_size in Hrun. discriminate.
  - now destruct (emalloc_returned _ _ _ _ _ Hn Hrun) as (_ & _ & ->).
Qed.

Lemma bind_returned {A B} (m : M H A) (k : A -> M H B) w (b : B) (w' : world H) :
  bind m k w = Returned b w' ->
  exists a w1, m w = Returned a w1 /\ k a w1 = Returned b w'.
Proof.
  unfold bind. destruct (m w) as [a w1| |]; [eauto|discriminate|discriminate].
Qed.

Lemma run_call_count w (c : call) (w' : world H) :
  run_call c w = Returned tt w' ->
  emalloc_count w' = wrap_int (emalloc_count w + live_delta c).
Proof.
  destruct c as [size r|ptr size r|ptr r|size|ptr]; cbn [run_call live_delta]; intros Hrun.
  - apply bind_returned in Hrun as (a & w1 & Hrun & [= <-]).
    exact (emalloc_count_after _ _ _ _ _ Hrun).
  - apply bind_returned in Hrun as (a & w1 & Hrun & [= <-]).
    destruct (Z.eq_dec size 0) as [->|Hn]; [discriminate|].
    rewrite erealloc_unfold in Hrun by assumption.
    destruct (ptr =? NULL).
    + exact (emalloc_count_after _ _ _ _ _ Hrun).
    + unfold bind in Hrun. rewrite efree_run in Hrun.
      rewrite (emalloc_count_after _ _ _ _ _ Hrun). cbn [emalloc_count after_efree].
      replace (emalloc_count w - 1) with (emalloc_count w + -1) by lia.
      rewrite wrap_int_shift. f_equal. lia.
  - rewrite efree_run in Hrun. injection Hrun as <-. cbn. f_equal.
  - apply bind_returned in Hrun as (a & w1 & Hrun & [= <-]).
    exact (emalloc_count_after _ _ "json:ptr" _ _ Hrun).
  - unfold json_free in Hrun. rewrite efree_run in Hrun. injection Hrun as <-.
    cbn. f_equal.
Qed.

(** X1: when a sequence of [emalloc], [erealloc], [efree], [json_malloc]
    and [json_free] calls has run to its end, [memleaks()] answers the starting
    count plus one for each allocation (a reallocation of [NULL] included)
    minus one for each release, as a 32-bit [int], whatever pointers were
    released; a sequence with as many allocations as releases ends on the
    starting count. *)
Theorem memleaks_counts_calls w (cs : list call) (w' : world H) :
  int_range (emalloc_count w) ->
  run_calls cs w = Returned tt w' ->
  memleaks w' = Returned (wrap_int (emalloc_count w + live_total cs)) w'
  /\ (live_total cs = 0 -> emalloc_count w' = emalloc_count w).
Proof.
  intros Hc Hrun.
  assert (Hcount : emalloc_count w' = wrap_int (emalloc_count w + live_total cs)).
  { revert w Hc Hrun. induction cs as [|c cs IH]; intros w Hc Hrun.
    - injection Hrun as <-. cbn. rewrite Z.add_0_r. symmetry.
      now apply wrap_int_small.
    - cbn [run_calls] in Hrun.
      apply bind_returned in Hrun as ([] & w1 & Hcall & Hrest).
      apply run_call_count in Hcall.
      rewrite (IH w1) by (rewrite ?Hcall; auto using wrap_int_in_range).
      rewrite Hcall, wrap_int_shift. cbn [live_total fold_right]. f_equal.
      fold (live_total cs). lia. }
  split.
  - unfold memleaks. now rewrite Hcount.
  - intros Hzero. rewrite Hcount, Hzero, Z.add_0_r. now apply wrap_int_small.
Qed.

(** X2: a call of [emalloc] that returns has written to its own block only:
    every byte outside [a .. a + n) is as before, and no message box was
    shown. *)
Theorem emalloc_writes_only_its_block w n r (a : Z) (w' : world H) :
  emalloc n r w = Returned a w' ->
  (forall p, p < a \/ a + n <= p -> mem w' p = mem w p)
  /\ shown w' = shown w.
Proof.
  intros Hrun. destruct (Z.eq_dec n 0) as [->|Hn].
  - rewrite emalloc_zero_size in Hrun. discriminate.
  - destruct (emalloc_returned _ _ _ _ _ Hn Hrun) as (_ & _ & ->).
    split; [|reflexivity]. intros p Hp. cbn. apply memset_outside. lia.
Qed.

End TrackerSequences.

Section TrackerSequenceRuns.
Import Tracker.
#[local] Existing Instance Bump.platform.

(** Two allocations, a reallocation and two releases, one of them of a
    pointer never handed out: one buffer is counted at the end. *)
Lemma memleaks_counts_calls_witness :
  exists w',
    run_calls [JsonMalloc 16; Emalloc 32 "a"; Erealloc 0x10000 64 "a";
               JsonFree 0x10010; Efree 0x500 "b"; Erealloc NULL 8 "c"]
              Bump.boot = Returned tt w'
    /\ memleaks w' = Returned 1 w'.
Proof.
  set (cs := [JsonMalloc 16; Emalloc 32 "a"; Erealloc 0x10000 64 "a";
              JsonFree 0x10010; Efree 0x500 "b"; Erealloc NULL 8 "c"]).
  assert (Hc : int_range (emalloc_count Bump.boot)).
  { unfold int_range, INT_MIN, INT_MAX. cbn. lia. }
  let w := eval vm_compute in
    (match run_calls cs Bump.boot with Returned _ w1 => w1 | _ => Bump.boot end) in
  pose (w' := w).
  assert (Hrun : run_calls cs Bump.boot = Returned tt w') by (vm_compute; reflexivity).
  exists w'. split; [exact Hrun|].
  exact (proj1 (@memleaks_counts_calls Bump.heap Bump.platform Bump.boot cs w' Hc Hrun)).
Defined.

(** The 16 bytes allocated at [0x10000] are zeroed; the byte after them
    and the byte before them still hold [0xCC]. *)
Lemma emalloc_writes_only_its_block_witness :
  exists w',
    emalloc 16 "a" Bump.boot = Returned 0x10000 w'
    /\ mem w' 0x10010 = xcc /\ mem w' 0xffff = xcc.
Proof.
  destruct (emalloc 16 "a" Bump.boot) as [a w'|code w'|w'] eqn:Hrun;
    [|vm_compute in Hrun; discriminate|vm_compute in Hrun; discriminate].
  destruct (@emalloc_writes_only_its_block Bump.heap Bump.platform
              Bump.boot 16 "a" a w' Hrun) as [Hout _].
  assert (Ha : a = 0x10000).
  { assert (Hn : 16 <> 0) by lia.
    destruct (emalloc_returned _ _ _ _ _ Hn Hrun) as (Ha & _).
    rewrite Ha. reflexivity. }
  subst a. exists w'. split; [reflexivity|].
  split; (rewrite Hout; [reflexivity|lia]).
Defined.

End TrackerSequenceRuns.

(** ** C strings *)

Section TextFacts.
Import Text.

Implicit Types (c : byte) (s a b cmd e : list byte) (fill : option byte).

(** *** Characters *)

Lemma byte_eqb_spec c (d : byte) : reflect (c = d) (Byte.eqb c d).
Proof.
  destruct (Byte.eqb c d) eqn:E; constructor.
  - now apply Byte.byte_dec_bl.
  - now apply Byte.eqb_false.
Qed.

Lemma code_inj c (d : byte) : code c = code d -> c = d.
Proof.
  unfold code. intros Heq.
  assert (HN : Byte.to_N c = Byte.to_N d) by lia.
  pose proof (Byte.of_to_N c) as Hc. rewrite HN, Byte.of_to_N in Hc. congruence.
Qed.

Lemma code_NUL c : code c = 0 <-> c = NUL.
Proof.
  split; [intros Hc; apply code_inj; exact Hc | now intros ->].
Qed.

Lemma toupper_not_NUL c : c <> NUL -> toupper c <> NUL.
Proof. destruct c; vm_compute; congruence. Qed.

Lemma tolower_not_NUL c : c <> NUL -> tolower c <> NUL.
Proof. destruct c; vm_compute; congruence. Qed.

Lemma isxdigit_not_NUL c : isxdigit c = true -> c <> NUL.
Proof. destruct c; vm_compute; congruence. Qed.

Lemma isdigit_isxdigit c : isdigit c = true -> isxdigit c = true.
Proof. unfold isxdigit. now intros ->. Qed.

Lemma isdigit_toupper c : isdigit (toupper c) = isdigit c.
Proof. destruct c; reflexivity. Qed.

Lemma toupper_digit c : isdigit c = true -> toupper c = c.
Proof. destruct c; vm_compute; congruence. Qed.

Lemma toupper_idem c : toupper (toupper c) = toupper c.
Proof. destruct c; reflexivity. Qed.

Lemma isxdigit_toupper c : isxdigit (toupper c) = isxdigit c.
Proof. destruct c; reflexivity. Qed.

Lemma tolower_toupper c : tolower (toupper c) = tolower c.
Proof. destruct c; reflexivity. Qed.

(** An upper-cased hexadecimal digit is one of [0-9A-F]. *)
Lemma isxdigit_upper_range c :
  isxdigit (toupper c) = true ->
  48 <= code (toupper c) <= 57 \/ 65 <= code (toupper c) <= 70.
Proof. destruct c; vm_compute; intros; (discriminate || (left; split; discriminate) || (right; split; discriminate)). Qed.

(** *** Strings in buffers *)

Lemma c_str_app e (rest : list byte) : nul_free e -> c_str (e ++ NUL :: rest) = e.
Proof.
  induction 1 as [|c e Hc He IH]; cbn [c_str app]; [reflexivity|].
  destruct (byte_eqb_spec c NUL); [contradiction|]. now rewrite IH.
Qed.

Lemma c_str_nul_free s : nul_free s -> c_str s = s.
Proof.
  induction 1 as [|c e Hc He IH]; cbn [c_str]; [reflexivity|].
  destruct (byte_eqb_spec c NUL); [contradiction|]. now rewrite IH.
Qed.

Lemma load_middle (pre rest : list byte) c : load (pre ++ c :: rest) (length pre) = Ret c.
Proof. unfold load. now rewrite list_lookup_middle. Qed.

Lemma poke_middle (pre rest : list byte) c (d : byte) :
  poke (pre ++ c :: rest) (length pre) d = Ret (pre ++ d :: rest).
Proof.
  unfold poke. rewrite length_app. cbn [length].
  destruct (Nat.ltb_spec (length pre) (length pre + S (length rest))); [|lia].
  rewrite insert_app_r_alt, Nat.sub_diag by lia. reflexivity.
Qed.

Lemma clear_separators_spec s : forall (pre rest : list byte),
  clear_separators (pre ++ s ++ rest) (length pre) (length s)
    = Ret (pre ++ map separator_to_nul s ++ rest).
Proof.
  induction s as [|c s IH]; intros pre rest; [reflexivity|].
  cbn [clear_separators length map app]. rewrite load_middle. cbn [rbind].
  assert (Hstep : (if Byte.eqb c x01 then poke (pre ++ c :: s ++ rest) (length pre) NUL
                   else Ret (pre ++ c :: s ++ rest))
                  = Ret (pre ++ separator_to_nul c :: s ++ rest)).
  { unfold separator_to_nul. destruct (Byte.eqb c x01); [apply poke_middle|reflexivity]. }
  rewrite Hstep. cbn [rbind].
  specialize (IH (pre ++ [separator_to_nul c]) rest).
  rewrite length_app, Nat.add_1_r, <- !app_assoc in IH. exact IH.
Qed.

(** *** Entries *)

Lemma split_on_cons (sep : byte) s : exists e es, split_on sep s = e :: es.
Proof.
  induction s as [|c s (e & es & IH)]; cbn [split_on]; [eauto|].
  destruct (Byte.eqb c sep); [eauto|]. rewrite IH. eauto.
Qed.

Lemma join_nul_split s : join_nul (split_on x01 s) = map separator_to_nul s.
Proof.
  induction s as [|c s IH]; [reflexivity|].
  cbn [split_on map]. unfold separator_to_nul at 1.
  destruct (split_on_cons x01 s) as (e & es & Hs). rewrite Hs in *.
  destruct (Byte.eqb c x01); cbn in *; now rewrite IH.
Qed.

Lemma split_on_nul_free s : nul_free s -> Forall nul_free (split_on x01 s).
Proof.
  induction 1 as [|c s Hc Hs IH]; cbn [split_on].
  - repeat constructor.
  - destruct (split_on_cons x01 s) as (e & es & Hsplit). rewrite Hsplit in *.
    inversion IH; subst.
    destruct (Byte.eqb c x01); repeat constructor; assumption.
Qed.

Lemma split_on_app (sep : byte) (l1 l2 : list byte) :
  split_on sep (l1 ++ sep :: l2) = split_on sep l1 ++ split_on sep l2.
Proof.
  induction l1 as [|c l1 IH]; cbn [split_on app].
  - destruct (byte_eqb_spec sep sep); [reflexivity|contradiction].
  - rewrite IH. destruct (split_on_cons sep l1) as (e & es & ->).
    now destruct (Byte.eqb c sep).
Qed.

Lemma flat_map_cons_length (es : list (list byte)) :
  (length es <= length (flat_map (cons NUL) es))%nat.
Proof.
  induction es as [|e es IH]; cbn; [lia|]. rewrite length_app. lia.
Qed.

Lemma entries_start_with_NUL (es : list (list byte)) (tail : list byte) :
  exists rest, flat_map (cons NUL) es ++ NUL :: tail = NUL :: rest.
Proof. destruct es; cbn; eauto. Qed.

Lemma scan_entries_spec cmd (tail : list byte) :
  forall (es : list (list byte)) (pre : list byte) (fuel : nat),
    Forall nul_free es -> (length es <= fuel)%nat ->
    scan_entries fuel (pre ++ flat_map (cons NUL) es ++ NUL :: tail) cmd
                 (length pre + length (flat_map (cons NUL) es)) (length pre)
      = Ret (has_entry es cmd).
Proof.
  induction es as [|e es IH]; intros pre fuel Hes Hfuel.
  - cbn [flat_map length app]. rewrite Nat.add_0_r.
    destruct fuel; cbn [scan_entries]; now rewrite Nat.ltb_irrefl.
  - inversion Hes as [|? ? He Hes']; subst.
    destruct fuel as [|fuel]; [cbn in Hfuel; lia|].
    cbn [scan_entries flat_map]. rewrite length_app. cbn [length].
    destruct (Nat.ltb_spec (length pre)
                (length pre + (S (length e) + length (flat_map (cons NUL) es))));
      [|lia].
    rewrite <- !app_assoc. cbn [app]. rewrite load_middle. cbn [rbind].
    change (Byte.eqb NUL NUL) with true. cbv iota.
    destruct (entries_start_with_NUL es tail) as (rest & Hrest).
    assert (Hdrop : drop (length pre + 1) (pre ++ NUL :: e ++ flat_map (cons NUL) es ++ NUL :: tail)
                    = e ++ NUL :: rest).
    { rewrite Nat.add_1_r, <- Hrest.
      change (pre ++ NUL :: e ++ flat_map (cons NUL) es ++ NUL :: tail)
        with (pre ++ [NUL] ++ (e ++ flat_map (cons NUL) es ++ NUL :: tail)).
      rewrite app_assoc, drop_app_length'; [reflexivity|].
      rewrite length_app. cbn. lia. }
    unfold strlen_at. rewrite Hdrop, c_str_app by assumption.
    cbn [has_entry existsb]. destruct (_stricmp e cmd =? 0); [reflexivity|].
    cbn [orb]. fold (has_entry es cmd).
    specialize (IH (pre ++ NUL :: e) fuel Hes' ltac:(cbn in Hfuel; lia)).
    rewrite <- app_assoc in IH. cbn [app] in IH.
    rewrite length_app in IH. cbn [length] in IH.
    replace (length pre + length e + 1)%nat with (length pre + S (length e))%nat by lia.
    replace (length pre + (S (length e) + length (flat_map (cons NUL) es)))%nat
      with (length pre + S (length e) + length (flat_map (cons NUL) es))%nat by lia.
    exact IH.
Qed.

(** *** Comparison without case *)

Lemma nul_free_map (f : byte -> byte) s :
  (forall c, c <> NUL -> f c <> NUL) -> nul_free s -> nul_free (map f s).
Proof.
  intros Hf Hs. induction Hs as [|c s Hc Hs IH]; constructor; auto.
Qed.

Lemma _stricmp_zero_iff a : forall b,
  nul_free a -> nul_free b ->
  (_stricmp a b = 0 <-> map tolower a = map tolower b).
Proof.
  induction a as [|f a IH]; intros [|l b] Ha Hb; cbn [_stricmp map].
  - tauto.
  - inversion Hb as [|? ? Hl _]; subst. apply tolower_not_NUL in Hl.
    rewrite <- code_NUL in Hl. split; [lia|discriminate].
  - inversion Ha as [|? ? Hf _]; subst. apply tolower_not_NUL in Hf.
    rewrite <- code_NUL in Hf. split; [lia|discriminate].
  - inversion Ha; inversion Hb; subst.
    destruct (Z.eqb_spec (code (tolower f)) (code (tolower l))) as [Heq|Hne].
    + apply code_inj in Heq. rewrite Heq, IH by assumption.
      split; [now intros ->|now intros [= ->]].
    + split; [lia|]. intros [= Heq _]. now rewrite Heq in Hne.
Qed.

Lemma zero_test_iff (x y : Z) : (x = 0 <-> y = 0) -> (x =? 0) = (y =? 0).
Proof.
  intros Hiff. destruct (Z.eqb_spec x 0), (Z.eqb_spec y 0); tauto.
Qed.

Lemma _stricmp_toupper_r a cmd :
  nul_free a -> nul_free cmd ->
  (_stricmp a (map toupper cmd) =? 0) = (_stricmp a cmd =? 0).
Proof.
  intros Ha Hcmd. apply zero_test_iff.
  rewrite !_stricmp_zero_iff by auto using nul_free_map, toupper_not_NUL.
  rewrite map_map. now rewrite (map_ext _ _ tolower_toupper).
Qed.

Lemma has_entry_toupper (es : list (list byte)) cmd :
  Forall nul_free es -> nul_free cmd ->
  has_entry es (map toupper cmd) = has_entry es cmd.
Proof.
  intros Hes Hcmd. induction Hes as [|e es He Hes IH]; [reflexivity|].
  cbn [has_entry existsb]. fold (has_entry es (map toupper cmd)) (has_entry es cmd).
  now rewrite _stricmp_toupper_r, IH.
Qed.

(** *** [arraycontains] *)

Lemma arraycontains_fits (deflen : nat) fill (cmd_list : list byte) cmd :
  nul_free cmd_list -> (length cmd_list < deflen)%nat ->
  arraycontains deflen fill (Some cmd_list) (Some cmd)
    = Ret (has_entry (split_on x01 cmd_list) cmd).
Proof.
  intros Hfree Hlen. unfold arraycontains, strcpy_s. rewrite repeat_length.
  destruct (Nat.ltb_spec (length cmd_list) deflen); [|lia].
  cbn [rbind]. destruct (Nat.leb_spec deflen (length cmd_list)); [lia|].
  set (tail := match fill with
               | None => drop (S (length cmd_list)) (repeat NUL deflen)
               | Some c => repeat c (length (drop (S (length cmd_list)) (repeat NUL deflen)))
               end).
  pose proof (clear_separators_spec cmd_list [] (NUL :: tail)) as Hclear.
  cbn [app length] in Hclear. cbv zeta. rewrite Hclear. cbn [rbind].
  rewrite <- join_nul_split.
  pose proof (split_on_nul_free _ Hfree) as Hes.
  assert (Hsize : length (join_nul (split_on x01 cmd_list)) = length cmd_list)
    by now rewrite join_nul_split, length_map.
  destruct (split_on_cons x01 cmd_list) as (e & es & Hsplit).
  rewrite Hsplit in *. inversion Hes as [|? ? He Hes']; subst.
  cbn [join_nul] in *. rewrite length_app in Hsize.
  destruct (entries_start_with_NUL es tail) as (rest & Hrest).
  assert (Hfirst : c_str ((e ++ flat_map (cons NUL) es) ++ NUL :: tail) = e).
  { rewrite <- app_assoc, Hrest. now apply c_str_app. }
  unfold strlen_at. rewrite drop_0, Hfirst.
  cbn [has_entry existsb]. destruct (_stricmp e cmd =? 0); [reflexivity|].
  cbn [orb]. fold (has_entry es cmd).
  rewrite <- Hsize, <- app_assoc.
  apply scan_entries_spec; [assumption|].
  pose proof (flat_map_cons_length es). lia.
Qed.

Lemma arraycontains_too_long (deflen : nat) fill (cmd_list : list byte) cmd :
  (deflen <= length cmd_list)%nat ->
  arraycontains deflen fill (Some cmd_list) (Some cmd) = InvalidParameter.
Proof.
  intros Hlen. unfold arraycontains, strcpy_s. rewrite repeat_length.
  now destruct (Nat.ltb_spec (length cmd_list) deflen); [lia|].
Qed.

Lemma arraycontains_by_entries (deflen : nat) fill (cmd_list : list byte) cmd :
  nul_free cmd_list ->
  arraycontains deflen fill (Some cmd_list) (Some cmd)
    = if (length cmd_list <? deflen)%nat
      then Ret (has_entry (split_on x01 cmd_list) cmd)
      else InvalidParameter.
Proof.
  intros Hfree. destruct (Nat.ltb_spec (length cmd_list) deflen).
  - now apply arraycontains_fits.
  - now apply arraycontains_too_long.
Qed.

(** X3: for a list of less than [deflen] characters, [arraycontains]
    answers whether [cmd] equals, case ignored, one of the entries that the
    separators ['\1'] cut [cmd_list] into (empty entries included); it does
    so whatever the runtime leaves behind the copied string.  A list of
    [deflen] characters or more ends in the invalid-parameter handler of
    [strcpy_s], before the length test is reached. *)
Theorem arraycontains_entries (deflen : nat) fill (cmd_list : list byte) cmd :
  nul_free cmd_list ->
  arraycontains deflen fill (Some cmd_list) (Some cmd)
    = if (length cmd_list <? deflen)%nat
      then Ret (has_entry (split_on x01 cmd_list) cmd)
      else InvalidParameter.
Proof.
  intros Hfree. destruct (Nat.ltb_spec (length cmd_list) deflen) as [Hfits|Hlong].
  - exact (arraycontains_fits deflen fill cmd_list cmd Hfree Hfits).
  - exact (arraycontains_too_long deflen fill cmd_list cmd Hlong).
Qed.

Lemma toupper_separator c : Byte.eqb (toupper c) x01 = Byte.eqb c x01.
Proof. destruct c; reflexivity. Qed.

Lemma split_on_toupper s :
  split_on x01 (map toupper s) = map (map toupper) (split_on x01 s).
Proof.
  induction s as [|c s IH]; [reflexivity|].
  cbn [map split_on]. rewrite toupper_separator, IH.
  destruct (split_on_cons x01 s) as (e & es & ->).
  now destruct (Byte.eqb c x01).
Qed.

Lemma _stricmp_toupper_l a cmd :
  nul_free a -> nul_free cmd ->
  (_stricmp (map toupper a) cmd =? 0) = (_stricmp a cmd =? 0).
Proof.
  intros Ha Hcmd. apply zero_test_iff.
  rewrite !_stricmp_zero_iff by auto using nul_free_map, toupper_not_NUL.
  rewrite map_map. now rewrite (map_ext _ _ tolower_toupper).
Qed.

Lemma has_entry_toupper_entries (es : list (list byte)) cmd :
  Forall nul_free es -> nul_free cmd ->
  has_entry (map (map toupper) es) cmd = has_entry es cmd.
Proof.
  intros Hes Hcmd. induction Hes as [|e es He Hes IH]; [reflexivity|].
  cbn [has_entry existsb map].
  fold (has_entry (map (map toupper) es) cmd) (has_entry es cmd).
  now rewrite _stricmp_toupper_l, IH.
Qed.

(** X4: the answer of [arraycontains] does not depend on the case of the
    letters, neither in [cmd] nor in [cmd_list]: upper-casing either one
    leaves it as it is. *)
Theorem arraycontains_ignores_case (deflen : nat) fill (cmd_list : list byte) cmd :
  nul_free cmd_list -> nul_free cmd ->
  arraycontains deflen fill (Some cmd_list) (Some (map toupper cmd))
    = arraycontains deflen fill (Some cmd_list) (Some cmd)
  /\ arraycontains deflen fill (Some (map toupper cmd_list)) (Some cmd)
    = arraycontains deflen fill (Some cmd_list) (Some cmd).
Proof.
  intros Hlist Hcmd.
  pose proof (split_on_nul_free _ Hlist) as Hes.
  rewrite !arraycontains_by_entries by auto using nul_free_map, toupper_not_NUL.
  rewrite length_map, split_on_toupper.
  now rewrite has_entry_toupper, has_entry_toupper_entries.
Qed.

Lemma has_entry_app (es1 es2 : list (list byte)) cmd :
  has_entry (es1 ++ es2) cmd = has_entry es1 cmd || has_entry es2 cmd.
Proof. unfold has_entry. apply existsb_app. Qed.

(** X5: a list made of two lists with a separator between them contains
    [cmd] exactly when one of the two does. *)
Theorem arraycontains_concat (deflen : nat) fill (l1 l2 : list byte) cmd :
  nul_free l1 -> nul_free l2 ->
  (length (l1 ++ x01 :: l2) < deflen)%nat ->
  arraycontains deflen fill (Some (l1 ++ x01 :: l2)) (Some cmd)
    = rbind (arraycontains deflen fill (Some l1) (Some cmd)) (fun in1 : bool =>
      rbind (arraycontains deflen fill (Some l2) (Some cmd)) (fun in2 : bool =>
      Ret (in1 || in2))).
Proof.
  intros H1 H2 Hlen. rewrite length_app in Hlen. cbn [length] in Hlen.
  assert (Hfree : nul_free (l1 ++ x01 :: l2)).
  { apply Forall_app. split; [assumption|]. constructor; [discriminate|assumption]. }
  rewrite !arraycontains_by_entries by assumption.
  rewrite length_app. cbn [length].
  destruct (Nat.ltb_spec (length l1 + S (length l2)) deflen); [|lia].
  destruct (Nat.ltb_spec (length l1) deflen); [|lia].
  destruct (Nat.ltb_spec (length l2) deflen); [|lia].
  cbn [rbind]. now rewrite split_on_app, has_entry_app.
Qed.

Lemma _stricmp_nil_l cmd : nul_free cmd -> (_stricmp [] cmd = 0 <-> cmd = []).
Proof.
  intros Hcmd. rewrite (_stricmp_zero_iff [] cmd) by (auto; constructor).
  cbn. destruct cmd; [tauto|]. split; discriminate.
Qed.

(** X6: the empty command is an entry like any other: a list that ends in
    a separator contains it, and so does the empty list, which contains
    nothing else. *)
Theorem arraycontains_empty_entry (deflen : nat) fill (l : list byte) cmd :
  nul_free l -> nul_free cmd -> (length l + 1 < deflen)%nat ->
  arraycontains deflen fill (Some (l ++ [x01])) (Some []) = Ret true
  /\ arraycontains deflen fill (Some []) (Some []) = Ret true
  /\ (arraycontains deflen fill (Some []) (Some cmd) = Ret true <-> cmd = []).
Proof.
  intros Hl Hcmd Hlen.
  assert (Hfree : nul_free (l ++ [x01])).
  { apply Forall_app. split; [assumption|]. repeat constructor. discriminate. }
  rewrite !arraycontains_by_entries by (assumption || constructor).
  rewrite length_app. cbn [length].
  destruct (Nat.ltb_spec (length l + 1) deflen); [|lia].
  destruct (Nat.ltb_spec 0 deflen); [|lia].
  split; [|split].
  - rewrite split_on_app, has_entry_app. cbn. now rewrite orb_true_r.
  - reflexivity.
  - cbn [split_on has_entry existsb]. rewrite orb_false_r.
    rewrite <- (_stricmp_nil_l cmd Hcmd).
    destruct (Z.eqb_spec (_stricmp [] cmd) 0); split; congruence.
Qed.

(** *** [scmp] *)

(** X7: [scmp] answers [true] exactly when the two strings are equal once
    their letters are lowered; it is reflexive, symmetric and transitive. *)
Theorem scmp_equal_ignoring_case a b (c : list byte) :
  nul_free a -> nul_free b -> nul_free c ->
  (scmp a b = true <-> map tolower a = map tolower b)
  /\ scmp a a = true
  /\ scmp a b = scmp b a
  /\ (scmp a b = true -> scmp b c = true -> scmp a c = true).
Proof.
  intros Ha Hb Hc.
  assert (Hiff : forall x y, nul_free x -> nul_free y ->
            (scmp x y = true <-> map tolower x = map tolower y)).
  { intros x y Hx Hy. rewrite <- _stricmp_zero_iff by assumption.
    unfold scmp. destruct (Z.eqb_spec (_stricmp x y) 0); cbn; split; congruence. }
  split; [now apply Hiff|]. split; [now apply Hiff|]. split.
  - destruct (scmp a b) eqn:Eab, (scmp b a) eqn:Eba; try reflexivity.
    + apply Hiff in Eab; [|assumption..]. symmetry in Eab.
      apply Hiff in Eab; [congruence|assumption..].
    + apply Hiff in Eba; [|assumption..]. symmetry in Eba.
      apply Hiff in Eba; [congruence|assumption..].
  - rewrite !Hiff by assumption. congruence.
Qed.

(** *** [formathex] and [formatdec] *)

Lemma filter_length_le (keep : byte -> bool) s :
  (length (List.filter keep s) <= length s)%nat.
Proof. induction s as [|c s IH]; cbn; [lia|]. destruct (keep c); cbn; lia. Qed.

Lemma filter_nul_free (keep : byte -> bool) s :
  (forall c, keep c = true -> c <> NUL) -> nul_free (List.filter keep s).
Proof.
  intros Hkeep. induction s as [|c s IH]; cbn; [constructor|].
  destruct (keep c) eqn:E; [constructor; auto|assumption].
Qed.

Lemma keep_chars_spec (keep : byte -> bool) :
  forall (todo done acc rest : list byte),
    (length todo <= length rest)%nat ->
    exists rest',
      keep_chars keep (done ++ todo) (acc ++ NUL :: rest)
                 (length done) (length acc) (length todo)
        = Ret (acc ++ List.filter keep todo ++ NUL :: rest').
Proof.
  induction todo as [|c todo IH]; intros done acc rest Hroom.
  - exists rest. reflexivity.
  - cbn [keep_chars length List.filter]. rewrite load_middle. cbn [rbind].
    cbn [length] in Hroom.
    replace (done ++ c :: todo) with ((done ++ [c]) ++ todo)
      by now rewrite <- app_assoc.
    replace (S (length done)) with (length (done ++ [c]))
      by (rewrite length_app; cbn; lia).
    destruct (keep c).
    + destruct rest as [|r rest]; [cbn in Hroom; lia|].
      unfold sprintf_c. rewrite poke_middle. cbn [rbind].
      replace (acc ++ c :: r :: rest) with ((acc ++ [c]) ++ r :: rest)
        by now rewrite <- app_assoc.
      replace (length acc + 1)%nat with (length (acc ++ [c]))
        by (rewrite length_app; cbn; lia).
      rewrite poke_middle. cbn [rbind fst snd].
      replace (length acc + 1)%nat with (length (acc ++ [c]))
        by (rewrite length_app; cbn; lia).
      destruct (IH (done ++ [c]) (acc ++ [c]) rest ltac:(cbn in Hroom; lia))
        as (rest' & Hrun).
      exists rest'. rewrite Hrun, <- app_assoc. reflexivity.
    + destruct (IH (done ++ [c]) acc rest ltac:(lia)) as (rest' & Hrun).
      exists rest'. exact Hrun.
Qed.

Lemma format_with_spec (keep : byte -> bool) fill s :
  (forall c, keep c = true -> c <> NUL) -> nul_free s ->
  format_with keep fill s = Ret (List.filter keep (map toupper s)).
Proof.
  intros Hkeep Hs. unfold format_with, _strupr.
  set (upper := map toupper s).
  assert (Hlen : length s = length upper) by (unfold upper; now rewrite length_map).
  rewrite Nat.add_1_r. cbn [repeat].
  destruct (keep_chars_spec keep upper [] [] (repeat NUL (length s))
              ltac:(rewrite repeat_length; lia)) as (rest' & Hrun).
  cbn [app length] in Hrun. rewrite Hlen at 2. rewrite Hrun. cbn [rbind].
  pose proof (filter_nul_free keep upper Hkeep) as Hkept.
  rewrite c_str_app by assumption.
  unfold strcpy_s. rewrite length_app. cbn [length].
  pose proof (filter_length_le keep upper).
  destruct (Nat.ltb_spec (length (List.filter keep upper)) (length upper + 1)); [|lia].
  cbn [rbind]. now rewrite c_str_app.
Qed.

(** X8: [formathex] leaves in the caller's buffer the hexadecimal digits of
    the string, upper-cased, in their order, and nothing else; the copy
    through [new_string] stays inside both buffers and [strcpy_s] accepts
    it, whatever the string. *)
Theorem formathex_keeps_hex_digits fill s :
  nul_free s ->
  formathex fill s = Ret (List.filter isxdigit (map toupper s)).
Proof.
  intros Hs. unfold formathex.
  apply format_with_spec; [exact isxdigit_not_NUL|assumption].
Qed.

Lemma filter_toupper_hex s :
  List.filter isxdigit (map toupper (List.filter isxdigit (map toupper s)))
    = List.filter isxdigit (map toupper s).
Proof.
  induction s as [|c s IH]; [reflexivity|]. cbn [map List.filter].
  destruct (isxdigit (toupper c)) eqn:E; [|assumption].
  cbn [map List.filter]. now rewrite toupper_idem, E, IH.
Qed.

(** X9: the string [formathex] leaves is never longer than the one it was
    given, is made of the characters [0-9] and [A-F] only, and is left as
    it is by a second [formathex]. *)
Theorem formathex_result fill s :
  nul_free s ->
  exists out,
    formathex fill s = Ret out
    /\ (length out <= length s)%nat
    /\ Forall (fun c => 48 <= code c <= 57 \/ 65 <= code c <= 70) out
    /\ formathex fill out = Ret out.
Proof.
  intros Hs. exists (List.filter isxdigit (map toupper s)). unfold formathex.
  split; [apply format_with_spec; [exact isxdigit_not_NUL|assumption]|].
  split; [|split].
  - etransitivity; [apply filter_length_le|]. now rewrite length_map.
  - clear Hs. induction s as [|c s IH]; cbn [map List.filter]; [constructor|].
    destruct (isxdigit (toupper c)) eqn:E; [|assumption].
    constructor; [now apply isxdigit_upper_range|assumption].
  - rewrite format_with_spec
      by (exact isxdigit_not_NUL || (apply filter_nul_free; exact isxdigit_not_NUL)).
    now rewrite filter_toupper_hex.
Qed.

Lemma filter_isdigit_toupper s :
  List.filter isdigit (map toupper s) = List.filter isdigit s.
Proof.
  induction s as [|c s IH]; [reflexivity|]. cbn [map List.filter].
  rewrite isdigit_toupper. destruct (isdigit c) eqn:E; [|assumption].
  now rewrite toupper_digit, IH.
Qed.

Lemma isdigit_not_NUL c : isdigit c = true -> c <> NUL.
Proof. intros Hd. now apply isxdigit_not_NUL, isdigit_isxdigit. Qed.

(** X10: [formatdec] leaves the decimal digits of the string, in their
    order, and nothing else: the upper-casing it starts with changes
    nothing in its answer. *)
Theorem formatdec_keeps_digits fill s :
  nul_free s ->
  formatdec fill s = Ret (List.filter isdigit s).
Proof.
  intros Hs. unfold formatdec.
  rewrite format_with_spec by (exact isdigit_not_NUL || assumption).
  now rewrite filter_isdigit_toupper.
Qed.

Lemma filter_isdigit_hex s :
  List.filter isdigit (List.filter isxdigit (map toupper s)) = List.filter isdigit s.
Proof.
  induction s as [|c s IH]; [reflexivity|]. cbn [map List.filter].
  destruct (isxdigit (toupper c)) eqn:Ex.
  - cbn [List.filter]. rewrite isdigit_toupper.
    destruct (isdigit c) eqn:Ed; [|assumption]. now rewrite toupper_digit, IH.
  - destruct (isdigit c) eqn:Ed; [|assumption].
    rewrite isxdigit_toupper in Ex. apply isdigit_isxdigit in Ed. congruence.
Qed.

(** X11: [formatdec] on what [formathex] left gives what [formatdec] gives
    on the string itself: the hexadecimal pass drops no decimal digit. *)
Theorem formatdec_after_formathex fill s :
  nul_free s ->
  rbind (formathex fill s) (formatdec fill) = formatdec fill s.
Proof.
  intros Hs. unfold formathex, formatdec.
  rewrite (format_with_spec isxdigit) by (exact isxdigit_not_NUL || assumption).
  cbn [rbind].
  rewrite !(format_with_spec isdigit)
    by (exact isdigit_not_NUL || assumption
        || (apply filter_nul_free; exact isxdigit_not_NUL)).
  now rewrite !filter_isdigit_toupper, filter_isdigit_hex.
Qed.

End TextFacts.

(** *** The string functions on sample strings *)

Section TextRuns.
Import Text TextSamples.

Ltac nul_free_list :=
  vm_compute; repeat (constructor; [discriminate|]); constructor.

Lemma commands_nul_free : nul_free commands.
Proof. nul_free_list. Qed.

Lemma address_nul_free : nul_free address.
Proof. nul_free_list. Qed.

Lemma arraycontains_entries_witness :
  arraycontains deflen (Some xfe) (Some commands) (Some (text "STEP")) = Ret true
  /\ arraycontains deflen None (Some commands) (Some (text "ste")) = Ret false.
Proof.
  split.
  - rewrite (arraycontains_entries deflen (Some xfe) commands (text "STEP")
               commands_nul_free). reflexivity.
  - rewrite (arraycontains_entries deflen None commands (text "ste")
               commands_nul_free). reflexivity.
Defined.

Lemma arraycontains_ignores_case_witness :
  arraycontains deflen None (Some commands) (Some (text "GO"))
    = arraycontains deflen None (Some commands) (Some (text "go")).
Proof.
  assert (Hgo : nul_free (text "go")) by nul_free_list.
  exact (proj1 (arraycontains_ignores_case deflen None commands (text "go")
                  commands_nul_free Hgo)).
Defined.

Lemma arraycontains_concat_witness :
  arraycontains deflen None (Some (text "run" ++ x01 :: text "go")) (Some (text "Go"))
    = rbind (arraycontains deflen None (Some (text "run")) (Some (text "Go")))
        (fun in1 : bool =>
         rbind (arraycontains deflen None (Some (text "go")) (Some (text "Go")))
           (fun in2 : bool => Ret (in1 || in2))).
Proof.
  apply (arraycontains_concat deflen None (text "run") (text "go") (text "Go")).
  - nul_free_list.
  - nul_free_list.
  - vm_compute. lia.
Defined.

Lemma arraycontains_empty_entry_witness :
  arraycontains deflen None (Some (text "run" ++ [x01])) (Some []) = Ret true.
Proof.
  assert (Hrun : nul_free (text "run")) by nul_free_list.
  assert (Hnil : nul_free []) by constructor.
  assert (Hlen : (length (text "run") + 1 < deflen)%nat) by (vm_compute; lia).
  exact (proj1 (arraycontains_empty_entry deflen None (text "run") [] Hrun Hnil Hlen)).
Defined.

Lemma scmp_equal_ignoring_case_witness :
  scmp (text "InitDebug") (text "initdebug") = scmp (text "initdebug") (text "InitDebug").
Proof.
  assert (H1 : nul_free (text "InitDebug")) by nul_free_list.
  assert (H2 : nul_free (text "initdebug")) by nul_free_list.
  destruct (scmp_equal_ignoring_case (text "InitDebug") (text "initdebug") []
              H1 H2 ltac:(constructor)) as (_ & _ & Hsym & _).
  exact Hsym.
Defined.

Lemma formathex_keeps_hex_digits_witness :
  formathex None address = Ret (text "07FFEDEADBEEF").
Proof.
  rewrite (formathex_keeps_hex_digits None address address_nul_free). reflexivity.
Defined.

Lemma formathex_result_witness :
  exists out,
    formathex (Some xfe) address = Ret out
    /\ (length out <= length address)%nat
    /\ Forall (fun c => 48 <= code c <= 57 \/ 65 <= code c <= 70) out
    /\ formathex (Some xfe) out = Ret out.
Proof.
  exact (formathex_result (Some xfe) address address_nul_free).
Defined.

Lemma formatdec_keeps_digits_witness :
  formatdec None address = Ret (text "07").
Proof.
  rewrite (formatdec_keeps_digits None address address_nul_free). reflexivity.
Defined.

Lemma formatdec_after_formathex_witness :
  rbind (formathex None address) (formatdec None) = formatdec None address.
Proof.
  exact (formatdec_after_formathex None address address_nul_free).
Defined.

End TextRuns.

(** ** File attributes *)

Section AttributesFacts.
Import Attributes.

(** X12: whatever [GetFileAttributesW] answers for a path, [FileExists] and
    [DirExists] are never both true; one of them is true exactly when the
    answer is not [INVALID_FILE_ATTRIBUTES], although that value has the
    directory bit set. *)
Theorem FileExists_DirExists_exclusive (GetFileAttributesW : string -> Z) (path : string) :
  FileExists GetFileAttributesW path && DirExists GetFileAttributesW path = false
  /\ FileExists GetFileAttributesW path || DirExists GetFileAttributesW path
     = negb (GetFileAttributesW path =? INVALID_FILE_ATTRIBUTES)
  /\ Z.land INVALID_FILE_ATTRIBUTES FILE_ATTRIBUTE_DIRECTORY <> 0.
Proof.
  unfold FileExists, DirExists. cbv zeta.
  destruct (GetFileAttributesW path =? INVALID_FILE_ATTRIBUTES);
    destruct (Z.land (GetFileAttributesW path) FILE_ATTRIBUTE_DIRECTORY =? 0);
    repeat split; discriminate.
Qed.

End AttributesFacts.

(** ** The settings of [Configuration] *)

Section SettingsFacts.
Import Settings.

Implicit Types (cfg : Configuration) (category id : string) (answer : button).

Lemma bool_at_insert cfg category id (b : bool) (currentBool : gmap string bool)
    (c i : string) :
  Bools cfg !! category = Some currentBool ->
  (<[category := <[id := b]> currentBool]> (Bools cfg) !! c ≫= fun m => m !! i)
    = if decide (c = category /\ i = id) then Some b else bool_at cfg c i.
Proof.
  intros Hcat. unfold bool_at.
  destruct (decide (c = category)) as [->|Hc].
  - rewrite lookup_insert_eq, Hcat. cbn.
    destruct (decide (i = id)) as [->|Hi].
    + rewrite lookup_insert_eq. now rewrite decide_True.
    + rewrite lookup_insert_ne by congruence. rewrite decide_False by tauto. reflexivity.
  - rewrite lookup_insert_ne by congruence. rewrite decide_False by tauto. reflexivity.
Qed.

Lemma uint_at_insert cfg category id (v : Z) (currentUint : gmap string Z)
    (c i : string) :
  Uints cfg !! category = Some currentUint ->
  (<[category := <[id := v]> currentUint]> (Uints cfg) !! c ≫= fun m => m !! i)
    = if decide (c = category /\ i = id) then Some v else uint_at cfg c i.
Proof.
  intros Hcat. unfold uint_at.
  destruct (decide (c = category)) as [->|Hc].
  - rewrite lookup_insert_eq, Hcat. cbn.
    destruct (decide (i = id)) as [->|Hi].
    + rewrite lookup_insert_eq. now rewrite decide_True.
    + rewrite lookup_insert_ne by congruence. rewrite decide_False by tauto. reflexivity.
  - rewrite lookup_insert_ne by congruence. rewrite decide_False by tauto. reflexivity.
Qed.

Lemma getBool_present cfg category id answer (b : bool) :
  bool_at cfg category id = Some b -> getBool category id cfg answer = (b, cfg, []).
Proof.
  unfold bool_at, getBool. destruct (Bools cfg !! category) as [m|]; [|discriminate].
  cbn. now intros ->.
Qed.

Lemma getUint_present cfg category id answer (v : Z) :
  uint_at cfg category id = Some v -> getUint category id cfg answer = (v, cfg, []).
Proof.
  unfold uint_at, getUint. destruct (Uints cfg !! category) as [m|]; [|discriminate].
  cbn. now intros ->.
Qed.

(** X13: [setBool] on a setting that exists shows no warning, and then
    [getBool] answers the value set, again without a warning; every other
    boolean setting, the unsigned settings and the warning switch stay as
    they were. *)
Theorem setBool_then_getBool cfg category id (b : bool) answer :
  is_Some (bool_at cfg category id) ->
  exists cfg',
    setBool category id b cfg answer = (tt, cfg', [])
    /\ (forall answer', getBool category id cfg' answer' = (b, cfg', []))
    /\ (forall c i, ~ (c = category /\ i = id) -> bool_at cfg' c i = bool_at cfg c i)
    /\ Uints cfg' = Uints cfg
    /\ noMoreMsgbox cfg' = noMoreMsgbox cfg.
Proof.
  intros [b0 Hat]. unfold setBool. unfold bool_at in Hat.
  destruct (Bools cfg !! category) as [m|] eqn:Hcat; [|discriminate].
  cbn in Hat. rewrite Hat. eexists. split; [reflexivity|].
  split; [|split; [|split; reflexivity]].
  - intros answer'. apply getBool_present. unfold bool_at. cbn [Bools].
    rewrite (bool_at_insert cfg category id b m category id Hcat).
    now rewrite decide_True.
  - intros c i Hne. unfold bool_at at 1. cbn [Bools].
    rewrite (bool_at_insert cfg category id b m c i Hcat).
    now rewrite decide_False.
Qed.

(** X14: [setUint] on a setting that exists shows no warning, and then
    [getUint] answers the value set; every other unsigned setting, the
    boolean settings and the warning switch stay as they were. *)
Theorem setUint_then_getUint cfg category id (v : Z) answer :
  is_Some (uint_at cfg category id) ->
  exists cfg',
    setUint category id v cfg answer = (tt, cfg', [])
    /\ (forall answer', getUint category id cfg' answer' = (v, cfg', []))
    /\ (forall c i, ~ (c = category /\ i = id) -> uint_at cfg' c i = uint_at cfg c i)
    /\ Bools cfg' = Bools cfg
    /\ noMoreMsgbox cfg' = noMoreMsgbox cfg.
Proof.
  intros [v0 Hat]. unfold setUint. unfold uint_at in Hat.
  destruct (Uints cfg !! category) as [m|] eqn:Hcat; [|discriminate].
  cbn in Hat. rewrite Hat. eexists. split; [reflexivity|].
  split; [|split; [|split; reflexivity]].
  - intros answer'. apply getUint_present. unfold uint_at. cbn [Uints].
    rewrite (uint_at_insert cfg category id v m category id Hcat).
    now rewrite decide_True.
  - intros c i Hne. unfold uint_at at 1. cbn [Uints].
    rewrite (uint_at_insert cfg category id v m c i Hcat).
    now rewrite decide_False.
Qed.

Lemma ids_insert_present {A} (m : gmap string (gmap string A)) category id (x : A)
    (current : gmap string A) :
  m !! category = Some current -> is_Some (current !! id) ->
  ids (<[category := <[id := x]> current]> m) = ids m.
Proof.
  intros Hcat Hid. unfold ids. rewrite fmap_insert.
  assert (Hdom : dom (<[id := x]> current) = dom current).
  { rewrite dom_insert_L. apply elem_of_dom in Hid.
    apply subseteq_union_1_L. now apply singleton_subseteq_l. }
  rewrite Hdom. apply insert_id. now rewrite lookup_fmap, Hcat.
Qed.

Lemma run_access_same_settings (a : access) cfg answer :
  same_settings cfg (fst (run_access a cfg answer)).
Proof.
  unfold same_settings.
  destruct a as [category id|category id b|category id|category id v];
    unfold run_access, getBool, setBool, getUint, setUint, warn.
  - destruct (Bools cfg !! category) as [m|]; [destruct (m !! id)|];
      destruct (noMoreMsgbox cfg), answer; cbn; auto.
  - destruct (Bools cfg !! category) as [m|] eqn:Hcat;
      [destruct (m !! id) eqn:Hid|];
      destruct (noMoreMsgbox cfg), answer; cbn; auto;
      (split; [now apply ids_insert_present|auto]).
  - destruct (Uints cfg !! category) as [m|]; [destruct (m !! id)|];
      destruct (noMoreMsgbox cfg), answer; cbn; auto.
  - destruct (Uints cfg !! category) as [m|] eqn:Hcat;
      [destruct (m !! id) eqn:Hid|];
      destruct (noMoreMsgbox cfg), answer; cbn; auto;
      (split; [reflexivity|split; [now apply ids_insert_present|auto]]).
Qed.

Lemma run_accesses_cons (a : access) answer (l : list (access * button)) cfg :
  run_accesses ((a, answer) :: l) cfg
    = (fst (run_accesses l (fst (run_access a cfg answer))),
       snd (run_access a cfg answer)
         ++ snd (run_accesses l (fst (run_access a cfg answer)))).
Proof.
  cbn [run_accesses]. destruct (run_access a cfg answer) as [cfg1 shown1]. cbn.
  now destruct (run_accesses l cfg1).
Qed.

(** X15: no sequence of [getBool], [setBool], [getUint] and [setUint]
    calls adds or removes a setting, whatever categories and ids are asked
    for and whatever the user answers: the configuration keeps the ids it
    has under each category, and its defaults. *)
Theorem accesses_keep_settings (l : list (access * button)) cfg :
  ids (Bools (fst (run_accesses l cfg))) = ids (Bools cfg)
  /\ ids (Uints (fst (run_accesses l cfg))) = ids (Uints cfg)
  /\ defaultBools (fst (run_accesses l cfg)) = defaultBools cfg
  /\ defaultUints (fst (run_accesses l cfg)) = defaultUints cfg.
Proof.
  change (same_settings cfg (fst (run_accesses l cfg))).
  revert cfg. induction l as [|[a answer] l IH]; intros cfg.
  - repeat split.
  - rewrite run_accesses_cons. cbn [fst].
    destruct (run_access_same_settings a cfg answer) as (H1 & H2 & H3 & H4).
    destruct (IH (fst (run_access a cfg answer))) as (I1 & I2 & I3 & I4).
    repeat split; congruence.
Qed.

Lemma run_access_quiet (a : access) cfg answer :
  noMoreMsgbox cfg = true ->
  snd (run_access a cfg answer) = []
  /\ noMoreMsgbox (fst (run_access a cfg answer)) = true.
Proof.
  intros Hquiet.
  destruct a as [category id|category id b|category id|category id v];
    unfold run_access, getBool, setBool, getUint, setUint; rewrite Hquiet.
  - destruct (Bools cfg !! category) as [m|]; [destruct (m !! id)|]; cbn; auto.
  - destruct (Bools cfg !! category) as [m|]; [destruct (m !! id)|]; cbn; auto.
  - destruct (Uints cfg !! category) as [m|]; [destruct (m !! id)|]; cbn; auto.
  - destruct (Uints cfg !! category) as [m|]; [destruct (m !! id)|]; cbn; auto.
Qed.

Lemma run_accesses_quiet (l : list (access * button)) cfg :
  noMoreMsgbox cfg = true ->
  snd (run_accesses l cfg) = []
  /\ noMoreMsgbox (fst (run_accesses l cfg)) = true.
Proof.
  revert cfg. induction l as [|[a answer] l IH]; intros cfg Hquiet; [auto|].
  rewrite run_accesses_cons. cbn [fst snd].
  destruct (run_access_quiet a cfg answer Hquiet) as [Hshown Hflag].
  destruct (IH _ Hflag) as [Hshown' Hflag']. now rewrite Hshown, Hshown'.
Qed.

Lemma run_access_cancelled (a : access) cfg :
  snd (run_access a cfg Cancel) <> [] ->
  noMoreMsgbox (fst (run_access a cfg Cancel)) = true.
Proof.
  destruct a as [category id|category id b|category id|category id v];
    unfold run_access, getBool, setBool, getUint, setUint, warn.
  - destruct (Bools cfg !! category) as [m|]; [destruct (m !! id)|];
      destruct (noMoreMsgbox cfg); cbn; congruence.
  - destruct (Bools cfg !! category) as [m|]; [destruct (m !! id)|];
      destruct (noMoreMsgbox cfg); cbn; congruence.
  - destruct (Uints cfg !! category) as [m|]; [destruct (m !! id)|];
      destruct (noMoreMsgbox cfg); cbn; congruence.
  - destruct (Uints cfg !! category) as [m|]; [destruct (m !! id)|];
      destruct (noMoreMsgbox cfg); cbn; congruence.
Qed.

Lemma run_access_retry (a : access) cfg :
  snd (run_access a cfg Retry) <> [] -> fst (run_access a cfg Retry) = cfg.
Proof.
  destruct a as [category id|category id b|category id|category id v];
    unfold run_access, getBool, setBool, getUint, setUint, warn.
  - destruct (Bools cfg !! category) as [m|]; [destruct (m !! id)|];
      destruct (noMoreMsgbox cfg); cbn; congruence.
  - destruct (Bools cfg !! category) as [m|]; [destruct (m !! id)|];
      destruct (noMoreMsgbox cfg); cbn; congruence.
  - destruct (Uints cfg !! category) as [m|]; [destruct (m !! id)|];
      destruct (noMoreMsgbox cfg); cbn; congruence.
  - destruct (Uints cfg !! category) as [m|]; [destruct (m !! id)|];
      destruct (noMoreMsgbox cfg); cbn; congruence.
Qed.

(** X16: once the user has answered a "NOT FOUND IN CONFIG!" warning with
    Cancel, no later access shows a warning, whatever is asked for; an
    answer of Retry changes nothing, so the same access warns again. *)
Theorem warnings_stop_after_cancel (a : access) cfg (l : list (access * button)) :
  (snd (run_access a cfg Cancel) <> [] ->
     snd (run_accesses l (fst (run_access a cfg Cancel))) = [])
  /\ (snd (run_access a cfg Retry) <> [] ->
     run_access a (fst (run_access a cfg Retry)) Retry = run_access a cfg Retry)
  /\ (noMoreMsgbox cfg = true -> snd (run_accesses ((a, Retry) :: l) cfg) = []).
Proof.
  split; [|split].
  - intros Hshown. apply run_accesses_quiet. now apply run_access_cancelled.
  - intros Hshown. now rewrite run_access_retry.
  - intros Hquiet. now apply run_accesses_quiet.
Qed.

End SettingsFacts.

(** ** Settings in the store *)

Section KeyFacts.
Import Settings.

Lemma keys_spec {A} (m : gmap string A) :
  NoDup (keys m) /\ forall k, k ∈ keys m <-> is_Some (m !! k).
Proof.
  unfold keys. split.
  - rewrite merge_sort_Permutation. apply NoDup_fst_map_to_list.
  - intros k. rewrite merge_sort_Permutation, list_elem_of_fmap. split.
    + intros ([k' v] & -> & Hin). apply elem_of_map_to_list in Hin. now exists v.
    + intros [v Hk]. exists (k, v). split; [reflexivity|].
      now apply elem_of_map_to_list.
Qed.

Lemma keys_NoDup {A} (m : gmap string A) : NoDup (keys m).
Proof. apply keys_spec. Qed.

Lemma elem_of_keys {A} (m : gmap string A) (k : string) :
  k ∈ keys m <-> is_Some (m !! k).
Proof. apply keys_spec. Qed.

(** Assigning [f k] to each key of a list. *)
Lemma foldl_insert_lookup {A} (f : string -> A) (ks : list string) :
  forall (cur : gmap string A) (i : string),
    foldl (fun cur k => <[k := f k]> cur) cur ks !! i
      = if decide (i ∈ ks) then Some (f i) else cur !! i.
Proof.
  induction ks as [|k ks IH]; intros cur i; cbn [foldl].
  - rewrite decide_False; [reflexivity|]. apply not_elem_of_nil.
  - rewrite IH. destruct (decide (i ∈ ks)) as [Hin|Hout].
    + rewrite decide_True; [reflexivity|]. now right.
    + destruct (decide (i = k)) as [->|Hne].
      * rewrite lookup_insert_eq, decide_True; [reflexivity|]. now left.
      * rewrite lookup_insert_ne by congruence.
        rewrite decide_False; [reflexivity|]. rewrite elem_of_cons. tauto.
Qed.

Lemma foldl_insert_keys {A} (f : string -> A) (d m : gmap string A) :
  dom m = dom d -> (forall k x, m !! k = Some x -> f k = x) ->
  foldl (fun cur k => <[k := f k]> cur) d (keys d) = m.
Proof.
  intros Hdom Hf. apply map_eq. intros i. rewrite foldl_insert_lookup.
  destruct (decide (i ∈ keys d)) as [Hin|Hout].
  - apply elem_of_keys, elem_of_dom in Hin. rewrite <- Hdom in Hin.
    apply elem_of_dom in Hin as [x Hx]. now rewrite Hx, (Hf _ _ Hx).
  - rewrite elem_of_keys, <- elem_of_dom in Hout.
    rewrite (proj1 (not_elem_of_dom d i) Hout). symmetry.
    apply not_elem_of_dom. now rewrite Hdom.
Qed.

(** A loop that reads a value for each key and assigns it, threading the
    store: when each read answers [f k] and leaves the store alone, the loop
    assigns [f k] and leaves the store alone. *)
Lemma foldl_read_known {S A} (g : string -> S -> A * S) (f : string -> A) (s : S)
    (ks : list string) :
  (forall k, k ∈ ks -> g k s = (f k, s)) ->
  forall cur : gmap string A,
    foldl (fun '(cur, s) k => let '(x, s) := g k s in (<[k := x]> cur, s)) (cur, s) ks
      = (foldl (fun cur k => <[k := f k]> cur) cur ks, s).
Proof.
  induction ks as [|k ks IH]; intros Hg cur; [reflexivity|].
  cbn [foldl]. rewrite (Hg k) by now left.
  apply IH. intros k' Hk'. apply Hg. now right.
Qed.

(** Such a loop over keys the map has keeps the keys of the map. *)
Lemma foldl_read_dom {S A} (g : string -> S -> A * S) (ks : list string) :
  forall (cur : gmap string A) (s : S),
    (forall k, k ∈ ks -> is_Some (cur !! k)) ->
    dom (fst (foldl (fun '(cur, s) k => let '(x, s) := g k s in (<[k := x]> cur, s))
                    (cur, s) ks)) = dom cur.
Proof.
  induction ks as [|k ks IH]; intros cur s Hks; [reflexivity|].
  cbn [foldl]. destruct (g k s) as [x s1].
  assert (Hdom : dom (<[k := x]> cur) = dom cur).
  { rewrite dom_insert_L. apply subseteq_union_1_L, singleton_subseteq_l.
    apply elem_of_dom, Hks. now left. }
  rewrite IH; [exact Hdom|].
  intros k' Hk'. apply elem_of_dom. rewrite Hdom. apply elem_of_dom, Hks. now right.
Qed.

End KeyFacts.

Section BridgeFacts.
Import Settings.
Context {S : Type} `{!Bridge S}.

Implicit Types (cfg : Configuration) (store s : S) (category id : string).

Lemma ids_lookup {A} (m : gmap string (gmap string A)) category :
  ids m !! category = dom <$> (m !! category).
Proof. unfold ids. apply lookup_fmap. Qed.

Lemma ids_dom {A} (m d : gmap string (gmap string A)) :
  ids m = ids d -> dom m = dom d.
Proof. unfold ids. intros Hids. now rewrite <- (dom_fmap_L dom m), Hids, dom_fmap_L. Qed.

Lemma ids_inner {A} (m d : gmap string (gmap string A)) category
    (cur cur' : gmap string A) :
  ids m = ids d -> m !! category = Some cur -> d !! category = Some cur' ->
  dom cur = dom cur'.
Proof.
  intros Hids Hm Hd. pose proof (ids_lookup m category) as Hl.
  rewrite Hids, ids_lookup, Hm, Hd in Hl. cbn in Hl. congruence.
Qed.

(** The outer loop of a read: a loop over the categories around a loop
    over the ids. *)
Lemma outer_read_ids {A} (inner : string -> gmap string A -> S -> gmap string A * S)
    (cats : list string) :
  (forall category cur s, dom (fst (inner category cur s)) = dom cur) ->
  forall (B : gmap string (gmap string A)) s,
    ids (fst (foldl (fun '(B, s) category =>
                       match B !! category with
                       | Some cur => let '(cur, s) := inner category cur s in
                                     (<[category := cur]> B, s)
                       | None => (B, s)
                       end) (B, s) cats)) = ids B.
Proof.
  intros Hinner. induction cats as [|c cats IH]; intros B s; [reflexivity|].
  cbn [foldl]. destruct (B !! c) as [cur|] eqn:Hc; [|apply IH].
  specialize (Hinner c cur s). destruct (inner c cur s) as [cur' s1]. rewrite IH.
  unfold ids. rewrite fmap_insert. cbn in Hinner. rewrite Hinner.
  apply insert_id. now rewrite lookup_fmap, Hc.
Qed.

Lemma outer_read_known {A} (inner : string -> gmap string A -> S -> gmap string A * S)
    (T : string -> gmap string A) s (cats : list string) :
  NoDup cats ->
  forall B : gmap string (gmap string A),
    (forall category, category ∈ cats ->
       exists cur, B !! category = Some cur /\ inner category cur s = (T category, s)) ->
    foldl (fun '(B, s) category =>
             match B !! category with
             | Some cur => let '(cur, s) := inner category cur s in
                           (<[category := cur]> B, s)
             | None => (B, s)
             end) (B, s) cats
      = (foldl (fun B category => <[category := T category]> B) B cats, s).
Proof.
  induction 1 as [|c cats Hc Hcats IH]; intros B Hknown; [reflexivity|].
  cbn [foldl]. destruct (Hknown c ltac:(now left)) as (cur & -> & ->).
  apply IH. intros category Hin.
  destruct (Hknown category ltac:(now right)) as (cur' & Hcur' & Hrun).
  exists cur'. split; [|assumption].
  rewrite lookup_insert_ne; [assumption|]. intros ->. contradiction.
Qed.

Lemma inner_readBools_dom cfg category (cur : gmap string bool) s :
  dom (fst (foldl (fun '(cur, s) id =>
                     let '(b, s) := boolFromConfig category id cfg s in
                     (<[id := b]> cur, s))
                  (cur, s) (keys cur))) = dom cur.
Proof.
  apply (foldl_read_dom (fun id s => boolFromConfig category id cfg s)).
  intros k Hk. now apply elem_of_keys.
Qed.

Lemma inner_readUints_dom cfg category (cur : gmap string Z) s :
  dom (fst (foldl (fun '(cur, s) id =>
                     let '(i, s) := uintFromConfig category id cfg s in
                     (<[id := i]> cur, s))
                  (cur, s) (keys cur))) = dom cur.
Proof.
  apply (foldl_read_dom (fun id s => uintFromConfig category id cfg s)).
  intros k Hk. now apply elem_of_keys.
Qed.

(** X17: what [readBools] and [readUints] leave has exactly the categories
    and ids of the defaults, whatever the store holds or answers; each
    leaves the other half of the configuration alone. *)
Theorem read_settings_are_the_defaults cfg store :
  ids (Bools (fst (readBools cfg store))) = ids (defaultBools cfg)
  /\ Uints (fst (readBools cfg store)) = Uints cfg
  /\ ids (Uints (fst (readUints cfg store))) = ids (defaultUints cfg)
  /\ Bools (fst (readUints cfg store)) = Bools cfg.
Proof.
  split; [|split; [|split]].
  - unfold readBools.
    pose proof (outer_read_ids
      (fun category cur s =>
         foldl (fun '(cur, s) id =>
                  let '(b, s) := boolFromConfig category id cfg s in (<[id := b]> cur, s))
               (cur, s) (keys cur))
      (keys (defaultBools cfg)) (inner_readBools_dom cfg)
      (defaultBools cfg) store) as Hids.
    cbv beta in Hids.
    destruct (foldl _ (defaultBools cfg, store) (keys (defaultBools cfg))) as [B s1].
    exact Hids.
  - unfold readBools.
    now destruct (foldl _ (defaultBools cfg, store) (keys (defaultBools cfg))).
  - unfold readUints.
    pose proof (outer_read_ids
      (fun category cur s =>
         foldl (fun '(cur, s) id =>
                  let '(i, s) := uintFromConfig category id cfg s in (<[id := i]> cur, s))
               (cur, s) (keys cur))
      (keys (defaultUints cfg)) (inner_readUints_dom cfg)
      (defaultUints cfg) store) as Hids.
    cbv beta in Hids.
    destruct (foldl _ (defaultUints cfg, store) (keys (defaultUints cfg))) as [U s1].
    exact Hids.
  - unfold readUints.
    now destruct (foldl _ (defaultUints cfg, store) (keys (defaultUints cfg))).
Qed.

(** *** Writing *)

(** The loop over the ids of one category that writes each setting, unless
    [tab] is set and the store already has one. *)
Lemma inner_write {A} (enc : A -> Z) (tab : bool) category (m : gmap string A)
    (ks : list string) :
  keeps_writes S -> NoDup ks ->
  forall s,
    let s' := foldl (fun s id =>
                       if tab && bool_decide (is_Some (BridgeSettingGetUint category id s))
                       then s
                       else match m !! id with
                            | Some x => snd (BridgeSettingSetUint category id (enc x) s)
                            | None => s
                            end) s ks in
    (forall id x, id ∈ ks -> m !! id = Some x ->
       BridgeSettingGetUint category id s'
       = if tab && bool_decide (is_Some (BridgeSettingGetUint category id s))
         then BridgeSettingGetUint category id s else Some (enc x))
    /\ (forall c i, ~ (c = category /\ i ∈ ks) ->
         BridgeSettingGetUint c i s' = BridgeSettingGetUint c i s).
Proof.
  intros [Hsame Hother]. induction 1 as [|k ks Hk Hks IH]; intros s; cbn [foldl].
  - split; [intros id x Hin; now apply elem_of_nil in Hin|reflexivity].
  - set (s1 := if tab && bool_decide (is_Some (BridgeSettingGetUint category k s))
               then s
               else match m !! k with
                    | Some x => snd (BridgeSettingSetUint category k (enc x) s)
                    | None => s
                    end).
    destruct (IH s1) as [IHin IHout].
    assert (Hstep : forall c i, ~ (c = category /\ i = k) ->
              BridgeSettingGetUint c i s1 = BridgeSettingGetUint c i s).
    { intros c i Hne. unfold s1.
      destruct (tab && bool_decide _); [reflexivity|].
      destruct (m !! k); [|reflexivity]. apply Hother. intros [= -> ->]. tauto. }
    split.
    + intros id x Hin Hx. apply elem_of_cons in Hin as [->|Hin].
      * rewrite IHout by tauto. unfold s1.
        destruct (tab && bool_decide _); [reflexivity|]. rewrite Hx. apply Hsame.
      * rewrite (IHin id x Hin Hx).
        rewrite (Hstep category id) by (intros [_ ->]; contradiction). reflexivity.
    + intros c i Hne. rewrite IHout by (rewrite elem_of_cons in Hne; tauto).
      apply Hstep. rewrite elem_of_cons in Hne. tauto.
Qed.

(** The loop over the categories around it. *)
Lemma outer_write {A} (enc : A -> Z) (tab : string -> bool)
    (M : gmap string (gmap string A)) (cats : list string) :
  keeps_writes S -> NoDup cats ->
  forall s,
    let s' := foldl (fun s category =>
                 match M !! category with
                 | Some m =>
                     foldl (fun s id =>
                              if tab category
                                 && bool_decide (is_Some (BridgeSettingGetUint category id s))
                              then s
                              else match m !! id with
                                   | Some x => snd (BridgeSettingSetUint category id (enc x) s)
                                   | None => s
                                   end) s (keys m)
                 | None => s
                 end) s cats in
    (forall category m id x, category ∈ cats -> M !! category = Some m ->
       m !! id = Some x ->
       BridgeSettingGetUint category id s'
       = if tab category && bool_decide (is_Some (BridgeSettingGetUint category id s))
         then BridgeSettingGetUint category id s else Some (enc x))
    /\ (forall c i, c ∉ cats -> BridgeSettingGetUint c i s' = BridgeSettingGetUint c i s).
Proof.
  intros Hlaws. induction 1 as [|c0 cats Hc0 Hcats IH]; intros s; cbn [foldl].
  - split; [intros ? ? ? ? Hin; now apply elem_of_nil in Hin|reflexivity].
  - set (s1 := match M !! c0 with
               | Some m => foldl _ s (keys m)
               | None => s
               end).
    destruct (IH s1) as [IHin IHout].
    assert (Hstep : forall c i, c <> c0 ->
              BridgeSettingGetUint c i s1 = BridgeSettingGetUint c i s).
    { intros c i Hne. unfold s1. destruct (M !! c0) as [m0|]; [|reflexivity].
      apply (inner_write enc (tab c0) c0 m0 (keys m0) Hlaws (keys_NoDup m0) s). tauto. }
    split.
    + intros category m id x Hin Hm Hx. apply elem_of_cons in Hin as [->|Hin].
      * rewrite IHout by assumption. unfold s1. rewrite Hm.
        apply (inner_write enc (tab c0) c0 m (keys m) Hlaws (keys_NoDup m) s);
          [|assumption]. apply elem_of_keys. eauto.
      * rewrite (IHin category m id x Hin Hm Hx).
        rewrite (Hstep category id) by (intros ->; contradiction). reflexivity.
    + intros c i Hout. rewrite elem_of_cons in Hout.
      rewrite IHout by tauto. apply Hstep. tauto.
Qed.

(** *** Round trips through the store *)

Lemma bool_of_duint (b : bool) : negb (duint_of_bool b =? 0) = b.
Proof. now destruct b. Qed.

(** X18: a boolean written with [boolToConfig] is read back by
    [boolFromConfig] and by the debugger's [settingboolget], and an
    unsigned value written with [uintToConfig] by [uintFromConfig]; these
    reads write nothing. *)
Theorem written_setting_is_read_back cfg category id (b : bool) (v : Z) store :
  keeps_writes S ->
  boolFromConfig category id cfg (snd (boolToConfig category id b store))
    = (b, snd (boolToConfig category id b store))
  /\ settingboolget category id (snd (boolToConfig category id b store)) = b
  /\ uintFromConfig category id cfg (snd (uintToConfig category id v store))
    = (v, snd (uintToConfig category id v store)).
Proof.
  intros [Hsame _]. unfold boolFromConfig, settingboolget, uintFromConfig,
    boolToConfig, uintToConfig. rewrite !Hsame.
  rewrite bool_of_duint. now destruct b.
Qed.

Lemma writeBools_written cfg store category (m : gmap string bool) id (b : bool) :
  keeps_writes S -> Bools cfg !! category = Some m -> m !! id = Some b ->
  BridgeSettingGetUint category id (writeBools cfg store) = Some (duint_of_bool b).
Proof.
  intros Hlaws Hm Hb.
  exact (proj1 (outer_write duint_of_bool (fun _ => false) (Bools cfg) (keys (Bools cfg))
                  Hlaws (keys_NoDup _) store)
               category m id b (proj2 (elem_of_keys _ _) (ex_intro _ m Hm)) Hm Hb).
Qed.

(** X19: saving and loading give back the boolean settings: for a
    configuration whose boolean settings have the categories and ids of the
    defaults, [readBools] after [writeBools] leaves the configuration as it
    was, and the store as [writeBools] left it. *)
Theorem writeBools_then_readBools cfg store :
  keeps_writes S -> ids (Bools cfg) = ids (defaultBools cfg) ->
  readBools cfg (writeBools cfg store) = (cfg, writeBools cfg store).
Proof.
  intros Hlaws Hids. set (s' := writeBools cfg store).
  set (T := fun category => default ∅ (Bools cfg !! category)).
  pose proof (outer_read_known
    (fun category cur s =>
       foldl (fun '(cur, s) id =>
                let '(b, s) := boolFromConfig category id cfg s in (<[id := b]> cur, s))
             (cur, s) (keys cur))
    T s' (keys (defaultBools cfg)) (keys_NoDup _) (defaultBools cfg)) as Hrun.
  cbv beta in Hrun. unfold readBools. rewrite Hrun.
  - rewrite (foldl_insert_keys T (defaultBools cfg) (Bools cfg)).
    + now destruct cfg.
    + now apply ids_dom.
    + intros k x Hx. unfold T. now rewrite Hx.
  - intros category Hin. apply elem_of_keys in Hin as [d Hd]. exists d.
    split; [assumption|].
    assert (Hcat : is_Some (Bools cfg !! category)).
    { apply elem_of_dom. rewrite (ids_dom _ _ Hids). apply elem_of_dom. eauto. }
    destruct Hcat as [m Hm].
    pose proof (ids_inner _ _ _ _ _ Hids Hm Hd) as Hdom.
    rewrite (foldl_read_known (fun id s => boolFromConfig category id cfg s)
               (fun id => default false (m !! id)) s' (keys d)).
    + f_equal. unfold T. rewrite Hm. cbn.
      apply foldl_insert_keys; [assumption|]. intros k x Hx. now rewrite Hx.
    + intros k Hk. apply elem_of_keys, elem_of_dom in Hk. rewrite <- Hdom in Hk.
      apply elem_of_dom in Hk as [x Hx]. rewrite Hx. cbn.
      unfold boolFromConfig, s'.
      rewrite (writeBools_written cfg store category m k x Hlaws Hm Hx).
      now rewrite bool_of_duint.
Qed.

Lemma writeUints_run cfg answer store (b : bool) :
  bool_at cfg "Miscellaneous" "LoadSaveTabOrder" = Some b ->
  fst (writeUints cfg answer store) = (cfg, []).
Proof.
  intros Hb. unfold writeUints.
  now rewrite (getBool_present cfg "Miscellaneous" "LoadSaveTabOrder" answer b Hb).
Qed.

Lemma writeUints_written cfg answer store (b : bool) category (m : gmap string Z)
    id (v : Z) :
  keeps_writes S ->
  bool_at cfg "Miscellaneous" "LoadSaveTabOrder" = Some b ->
  Uints cfg !! category = Some m -> m !! id = Some v ->
  BridgeSettingGetUint category id (snd (writeUints cfg answer store))
    = if negb b && String.eqb category "TabOrder"
         && bool_decide (is_Some (BridgeSettingGetUint category id store))
      then BridgeSettingGetUint category id store else Some v.
Proof.
  intros Hlaws Hb Hm Hv. unfold writeUints.
  rewrite (getBool_present cfg "Miscellaneous" "LoadSaveTabOrder" answer b Hb).
  exact (proj1 (outer_write (fun i : Z => i)
                  (fun category => negb b && String.eqb category "TabOrder")
                  (Uints cfg) (keys (Uints cfg)) Hlaws (keys_NoDup _) store)
               category m id v (proj2 (elem_of_keys _ _) (ex_intro _ m Hm)) Hm Hv).
Qed.

(** X20: with the setting Miscellaneous:LoadSaveTabOrder on, saving and
    loading give back the unsigned settings: for a configuration whose
    unsigned settings have the categories and ids of the defaults,
    [writeUints] shows no warning and [readUints] after it leaves the
    configuration as it was. *)
Theorem writeUints_then_readUints cfg answer store :
  keeps_writes S ->
  bool_at cfg "Miscellaneous" "LoadSaveTabOrder" = Some true ->
  ids (Uints cfg) = ids (defaultUints cfg) ->
  fst (writeUints cfg answer store) = (cfg, [])
  /\ readUints cfg (snd (writeUints cfg answer store))
     = (cfg, snd (writeUints cfg answer store)).
Proof.
  intros Hlaws Hon Hids. split; [now apply (writeUints_run cfg answer store true)|].
  set (s' := snd (writeUints cfg answer store)).
  set (T := fun category => default ∅ (Uints cfg !! category)).
  pose proof (outer_read_known
    (fun category cur s =>
       foldl (fun '(cur, s) id =>
                let '(i, s) := uintFromConfig category id cfg s in (<[id := i]> cur, s))
             (cur, s) (keys cur))
    T s' (keys (defaultUints cfg)) (keys_NoDup _) (defaultUints cfg)) as Hrun.
  cbv beta in Hrun. unfold readUints. rewrite Hrun.
  - rewrite (foldl_insert_keys T (defaultUints cfg) (Uints cfg)).
    + now destruct cfg.
    + now apply ids_dom.
    + intros k x Hx. unfold T. now rewrite Hx.
  - intros category Hin. apply elem_of_keys in Hin as [d Hd]. exists d.
    split; [assumption|].
    assert (Hcat : is_Some (Uints cfg !! category)).
    { apply elem_of_dom. rewrite (ids_dom _ _ Hids). apply elem_of_dom. eauto. }
    destruct Hcat as [m Hm].
    pose proof (ids_inner _ _ _ _ _ Hids Hm Hd) as Hdom.
    rewrite (foldl_read_known (fun id s => uintFromConfig category id cfg s)
               (fun id => default 0 (m !! id)) s' (keys d)).
    + f_equal. unfold T. rewrite Hm. cbn.
      apply foldl_insert_keys; [assumption|]. intros k x Hx. now rewrite Hx.
    + intros k Hk. apply elem_of_keys, elem_of_dom in Hk. rewrite <- Hdom in Hk.
      apply elem_of_dom in Hk as [x Hx]. rewrite Hx. cbn.
      unfold uintFromConfig, s'.
      now rewrite (writeUints_written cfg answer store true category m k x
                     Hlaws Hon Hm Hx).
Qed.

(** X21: with the setting Miscellaneous:LoadSaveTabOrder off, [writeUints]
    leaves the TabOrder values the store already has as they are; every
    other unsigned setting, and a TabOrder setting the store does not have
    yet, is stored with its current value. *)
Theorem writeUints_keeps_stored_tab_order cfg answer store category id (v : Z) :
  keeps_writes S ->
  bool_at cfg "Miscellaneous" "LoadSaveTabOrder" = Some false ->
  uint_at cfg category id = Some v ->
  BridgeSettingGetUint category id (snd (writeUints cfg answer store))
    = if String.eqb category "TabOrder"
         && bool_decide (is_Some (BridgeSettingGetUint category id store))
      then BridgeSettingGetUint category id store
      else Some v.
Proof.
  intros Hlaws Hoff Hv. unfold uint_at in Hv.
  destruct (Uints cfg !! category) as [m|] eqn:Hm; [|discriminate]. cbn in Hv.
  exact (writeUints_written cfg answer store false category m id v Hlaws Hoff Hm Hv).
Qed.

End BridgeFacts.

(** *** The settings on the sample configuration *)

Section SettingsRuns.
Import Settings SettingsSamples.

Lemma map_bridge_keeps_writes : keeps_writes (gmap (string * string) Z).
Proof.
  split; cbn.
  - intros section name v store. apply lookup_insert_eq.
  - intros section name section' name' v store Hne.
    apply lookup_insert_ne. congruence.
Qed.

Lemma fresh_has_tab_order_switch :
  bool_at fresh "Miscellaneous" "LoadSaveTabOrder" = Some false.
Proof. vm_compute. reflexivity. Qed.

Lemma rearranged_has_tab_order_switch :
  bool_at rearranged "Miscellaneous" "LoadSaveTabOrder" = Some true.
Proof. vm_compute. reflexivity. Qed.

Lemma rearranged_bools_ids : ids (Bools rearranged) = ids (defaultBools rearranged).
Proof. reflexivity. Qed.

Lemma rearranged_uints_ids : ids (Uints rearranged) = ids (defaultUints rearranged).
Proof. reflexivity. Qed.

Lemma setBool_then_getBool_witness :
  exists cfg',
    setBool "Gui" "SaveColumnOrder" false fresh Cancel = (tt, cfg', [])
    /\ getBool "Gui" "SaveColumnOrder" cfg' Cancel = (false, cfg', []).
Proof.
  assert (Hat : is_Some (bool_at fresh "Gui" "SaveColumnOrder"))
    by (vm_compute; eauto).
  destruct (setBool_then_getBool fresh "Gui" "SaveColumnOrder" false Cancel Hat)
    as (cfg' & Hset & Hget & _).
  exists cfg'. auto.
Defined.

Lemma setUint_then_getUint_witness :
  exists cfg',
    setUint "TabOrder" "LogTab" 0 fresh Retry = (tt, cfg', [])
    /\ getUint "TabOrder" "LogTab" cfg' Retry = (0, cfg', []).
Proof.
  assert (Hat : is_Some (uint_at fresh "TabOrder" "LogTab"))
    by (vm_compute; eauto).
  destruct (setUint_then_getUint fresh "TabOrder" "LogTab" 0 Retry Hat)
    as (cfg' & Hset & Hget & _).
  exists cfg'. auto.
Defined.

Lemma written_setting_is_read_back_witness :
  settingboolget "Engine" "ListAllPages"
    (snd (boolToConfig "Engine" "ListAllPages" true stored)) = true.
Proof.
  exact (proj1 (proj2 (written_setting_is_read_back fresh "Engine" "ListAllPages"
                         true 0 stored map_bridge_keeps_writes))).
Defined.

Lemma writeBools_then_readBools_witness :
  readBools rearranged (writeBools rearranged stored)
    = (rearranged, writeBools rearranged stored).
Proof.
  exact (writeBools_then_readBools rearranged stored
           map_bridge_keeps_writes rearranged_bools_ids).
Defined.

Lemma writeUints_then_readUints_witness :
  readUints rearranged (snd (writeUints rearranged Retry stored))
    = (rearranged, snd (writeUints rearranged Retry stored)).
Proof.
  exact (proj2 (writeUints_then_readUints rearranged Retry stored
                  map_bridge_keeps_writes rearranged_has_tab_order_switch
                  rearranged_uints_ids)).
Defined.

(** With the switch off, the stored position of the CPU tab stays [2]
    though the configuration has it at [0]; the notes tab, not stored yet,
    gets its position. *)
Lemma writeUints_keeps_stored_tab_order_witness :
  snd (writeUints fresh Retry stored) !! ("TabOrder"%string, "CPUTab"%string) = Some 2
  /\ snd (writeUints fresh Retry stored) !! ("TabOrder"%string, "NotesTab"%string) = Some 2
  /\ snd (writeUints fresh Retry stored) !! ("HexDump"%string, "DefaultView"%string) = Some 0.
Proof.
  assert (H1 : uint_at fresh "TabOrder" "CPUTab" = Some 0) by (vm_compute; reflexivity).
  assert (H2 : uint_at fresh "TabOrder" "NotesTab" = Some 2) by (vm_compute; reflexivity).
  assert (H3 : uint_at fresh "HexDump" "DefaultView" = Some 0) by (vm_compute; reflexivity).
  split; [|split].
  - exact (writeUints_keeps_stored_tab_order fresh Retry stored "TabOrder" "CPUTab" 0
             map_bridge_keeps_writes fresh_has_tab_order_switch H1).
  - exact (writeUints_keeps_stored_tab_order fresh Retry stored "TabOrder" "NotesTab" 2
             map_bridge_keeps_writes fresh_has_tab_order_switch H2).
  - exact (writeUints_keeps_stored_tab_order fresh Retry stored "HexDump" "DefaultView" 0
             map_bridge_keeps_writes fresh_has_tab_order_switch H3).
Defined.

End SettingsRuns.

(** ** [ResolveShortcut] *)

Section ShortcutFacts.
Import Text Shortcut.

Lemma c_str_is_nul_free (buf : list byte) : nul_free (c_str buf).
Proof.
  induction buf as [|c buf IH]; cbn [c_str]; [constructor|].
  destruct (byte_eqb_spec c NUL); constructor; assumption.
Qed.

Lemma strcpy_s_fits (fill : option byte) (dest src : list byte) :
  nul_free src -> (length src < length dest)%nat ->
  exists out, strcpy_s fill dest src = Ret out /\ c_str out = src
              /\ length out = length dest.
Proof.
  intros Hsrc Hlen. unfold strcpy_s.
  destruct (Nat.ltb_spec (length src) (length dest)); [|lia].
  eexists. split; [reflexivity|]. split; [now apply c_str_app|].
  rewrite length_app. cbn [length].
  destruct fill; rewrite ?repeat_length, length_drop; lia.
Qed.

(** X22: [ResolveShortcut] answers [true] only when creating the link
    object, asking for its file interface, loading, resolving and
    [GetPath] all succeeded, and then the buffer holds the path [GetPath]
    gave; when one of them failed the answer is [false] and the buffer is
    as it was.  A null buffer is answered [false] with no call made; a
    buffer too small for the path ends in the invalid-parameter handler of
    [strcpy_s]. *)
Theorem ResolveShortcut_result (env : shell) (fill : option byte) (buffer : list byte) :
  let all := SUCCEEDED (hr_CoCreateInstance env) && SUCCEEDED (hr_QueryInterface env)
             && SUCCEEDED (hr_Load env) && SUCCEEDED (hr_Resolve env)
             && SUCCEEDED (hr_GetPath env) in
  ResolveShortcut env fill None = Ret (false, None, [])
  /\ (all = false ->
      exists calls, ResolveShortcut env fill (Some buffer) = Ret (false, Some buffer, calls))
  /\ (all = true -> (length (c_str (szGotPath env)) < length buffer)%nat ->
      exists out calls,
        ResolveShortcut env fill (Some buffer) = Ret (true, Some out, calls)
        /\ c_str out = c_str (szGotPath env) /\ length out = length buffer)
  /\ (all = true -> (length buffer <= length (c_str (szGotPath env)))%nat ->
      ResolveShortcut env fill (Some buffer) = InvalidParameter).
Proof.
  cbv zeta. split; [reflexivity|]. unfold ResolveShortcut.
  destruct (SUCCEEDED (hr_CoCreateInstance env)) eqn:E1;
    destruct (SUCCEEDED (hr_QueryInterface env)) eqn:E2;
    destruct (SUCCEEDED (hr_Load env)) eqn:E3;
    destruct (SUCCEEDED (hr_Resolve env)) eqn:E4;
    destruct (SUCCEEDED (hr_GetPath env)) eqn:E5;
    cbn [andb rbind];
    (split; [intros Hall; try discriminate; rewrite ?E1, ?E2, ?E3, ?E4, ?E5; eauto
            |split; intros Hall; try discriminate]).
  - intros Hfit.
    destruct (strcpy_s_fits fill buffer (c_str (szGotPath env))
                (c_str_is_nul_free _) Hfit) as (out & -> & Hout & Hlen).
    cbn [rbind]. rewrite E5. eauto.
  - intros Hsmall. unfold strcpy_s.
    destruct (Nat.ltb_spec (length (c_str (szGotPath env))) (length buffer)); [lia|].
    reflexivity.
Qed.

(** X23: on every path that returns with a buffer given, [CoInitialize] and
    [CoUninitialize] are each called once, first and last, the link object
    is released once if and only if it was created, and its file interface
    once if and only if it was obtained. *)
Theorem ResolveShortcut_releases (env : shell) (fill : option byte) (buffer : list byte)
    (ok : bool) (out : option (list byte)) (calls : list com_call) :
  ResolveShortcut env fill (Some buffer) = Ret (ok, out, calls) ->
  head calls = Some CoInitialize /\ last calls = Some CoUninitialize
  /\ times CoInitialize calls = 1%nat /\ times CoUninitialize calls = 1%nat
  /\ times Release_psl calls
     = (if SUCCEEDED (hr_CoCreateInstance env) then 1 else 0)%nat
  /\ times Release_ppf calls
     = (if SUCCEEDED (hr_CoCreateInstance env) && SUCCEEDED (hr_QueryInterface env)
        then 1 else 0)%nat.
Proof.
  unfold ResolveShortcut.
  destruct (SUCCEEDED (hr_CoCreateInstance env)) eqn:E1;
    destruct (SUCCEEDED (hr_QueryInterface env)) eqn:E2;
    destruct (SUCCEEDED (hr_Load env)) eqn:E3;
    destruct (SUCCEEDED (hr_Resolve env)) eqn:E4;
    destruct (SUCCEEDED (hr_GetPath env)) eqn:E5;
    cbn [andb rbind];
    try (destruct (strcpy_s fill buffer (c_str (szGotPath env))); cbn [rbind];
         try discriminate);
    intros [= <- <- <-]; repeat split; reflexivity.
Qed.

End ShortcutFacts.

Section ShortcutRuns.
Import Text Shortcut TextSamples.

(** The link object is created and the file interface refused: the object
    is released, there is no interface to release. *)
Lemma ResolveShortcut_releases_witness :
  ResolveShortcut no_interface None (Some path_buffer)
    = Ret (false, Some path_buffer,
           [CoInitialize; CoCreateInstance; QueryInterface; Release_psl; CoUninitialize])
  /\ times Release_psl
       [CoInitialize; CoCreateInstance; QueryInterface; Release_psl; CoUninitialize] = 1%nat
  /\ times Release_ppf
       [CoInitialize; CoCreateInstance; QueryInterface; Release_psl; CoUninitialize] = 0%nat.
Proof.
  assert (Hrun : ResolveShortcut no_interface None (Some path_buffer)
                 = Ret (false, Some path_buffer,
                        [CoInitialize; CoCreateInstance; QueryInterface; Release_psl;
                         CoUninitialize])) by reflexivity.
  destruct (ResolveShortcut_releases no_interface None path_buffer false
              (Some path_buffer) _ Hrun) as (_ & _ & _ & _ & Hpsl & Hppf).
  split; [exact Hrun|]. split; [exact Hpsl|exact Hppf].
Defined.

End ShortcutRuns.
